(** * Ultra-deep mapsite discovery: classifier, store, pattern analyzer, scheduler

    A shallow embedding of [ultra_deep_mapsite.py].  Python [str] values are
    modelled as [string] (characters with code points below 256); on such
    text the Unicode-aware behaviour of [re] ([IGNORECASE], [\d]) coincides
    with the ASCII rules used below.  Python [int] is [Z] where it can go
    negative and [nat] where it counts. *)

From Stdlib Require Import Ascii ZArith Lia Bool Sorted.
From Stdlib Require String.
From stdpp Require Import base list gmap strings pretty.

Local Open Scope string_scope.
Local Open Scope list_scope.

(** ** Python [str] methods used by the program *)

Module Str.

Definition startswith (s p : string) : bool := String.prefix p s.

(** [sub in s] *)
Fixpoint contains (sub s : string) : bool :=
  String.prefix sub s ||
  match s with
  | EmptyString => false
  | String _ s' => contains sub s'
  end.

Fixpoint lstrip (c : ascii) (s : string) : string :=
  match s with
  | String x s' => if Ascii.eqb x c then lstrip c s' else s
  | EmptyString => EmptyString
  end.

(** [s.rstrip(c)]: a character is dropped when everything after it is
    dropped too. *)
Fixpoint rstrip (c : ascii) (s : string) : string :=
  match s with
  | EmptyString => EmptyString
  | String x s' =>
      match rstrip c s' with
      | EmptyString => if Ascii.eqb x c then EmptyString else String x EmptyString
      | t => String x t
      end
  end.

Fixpoint drop (n : nat) (s : string) : string :=
  match n, s with
  | S n', String _ s' => drop n' s'
  | _, _ => s
  end.

(** [s.replace(old, new)] for a non-empty [old]: occurrences are replaced
    from the left without overlap; [skip] counts the characters of an
    occurrence that is already replaced. *)
Fixpoint replace_from (skip : nat) (old new s : string) : string :=
  match s with
  | EmptyString => EmptyString
  | String x s' =>
      match skip with
      | S k => replace_from k old new s'
      | O =>
          if String.prefix old s
          then new +:+ replace_from (String.length old - 1) old new s'
          else String x (replace_from 0 old new s')
      end
  end.

Definition replace (old new s : string) : string := replace_from 0 old new s.

(** [s.split(c)[0]] *)
Fixpoint before_first (c : ascii) (s : string) : string :=
  match s with
  | EmptyString => EmptyString
  | String x s' => if Ascii.eqb x c then EmptyString else String x (before_first c s')
  end.

(** [s.rsplit(c, 1)[0]]: the text before the last [c], the whole of [s]
    when there is none. *)
Fixpoint rsplit1_head (c : ascii) (s : string) : string :=
  match s with
  | EmptyString => EmptyString
  | String x s' =>
      if Ascii.eqb x c && negb (contains (String c EmptyString) s')
      then EmptyString
      else String x (rsplit1_head c s')
  end.

Fixpoint map (f : ascii -> ascii) (s : string) : string :=
  match s with
  | EmptyString => EmptyString
  | String x s' => String (f x) (map f s')
  end.

(** [str.isspace] on one character *)
Definition is_space (x : ascii) : bool :=
  let n := nat_of_ascii x in
  ((9 <=? n) && (n <=? 13) || (28 <=? n) && (n <=? 32) || (n =? 133) || (n =? 160))%nat.

Fixpoint lstrip_space (s : string) : string :=
  match s with
  | String x s' => if is_space x then lstrip_space s' else s
  | EmptyString => EmptyString
  end.

Fixpoint rstrip_space (s : string) : string :=
  match s with
  | EmptyString => EmptyString
  | String x s' =>
      match rstrip_space s' with
      | EmptyString => if is_space x then EmptyString else String x EmptyString
      | t => String x t
      end
  end.

(** [s.strip()] *)
Definition strip (s : string) : string := rstrip_space (lstrip_space s).

Definition is_digit (x : ascii) : bool :=
  (48 <=? nat_of_ascii x)%nat && (nat_of_ascii x <=? 57)%nat.

Definition digit_value (x : ascii) : Z := Z.of_nat (nat_of_ascii x) - 48.

(** [int(s)] for a string of decimal digits. *)
Fixpoint int_from (acc : Z) (s : string) : Z :=
  match s with
  | EmptyString => acc
  | String x s' => int_from (10 * acc + digit_value x) s'
  end.

Definition int (s : string) : Z := int_from 0 s.

(** The longest prefix of digits, as the greedy [\d+] takes it. *)
Fixpoint digit_run (s : string) : string :=
  match s with
  | String x s' => if is_digit x then String x (digit_run s') else EmptyString
  | EmptyString => EmptyString
  end.

End Str.

(** ** Python dicts that are read in insertion order *)

Module Dict.

(** [d[key] += 1] on a [defaultdict(int)] *)
Fixpoint bump (key : string) (d : list (string * nat)) : list (string * nat) :=
  match d with
  | [] => [(key, 1%nat)]
  | (k, n) :: rest =>
      if String.eqb k key then (k, S n) :: rest else (k, n) :: bump key rest
  end.

(** [d[key].append(v)] on a [defaultdict(list)] *)
Fixpoint append_to (key v : string) (d : list (string * list string))
  : list (string * list string) :=
  match d with
  | [] => [(key, [v])]
  | (k, vs) :: rest =>
      if String.eqb k key then (k, vs ++ [v]) :: rest
      else (k, vs) :: append_to key v rest
  end.

(** Where [sorted(..., key=count, reverse=True)] puts an item: behind
    the items that count at least as much. *)
Fixpoint insert_desc (item : string * nat) (l : list (string * nat))
  : list (string * nat) :=
  match l with
  | [] => [item]
  | x :: rest =>
      if (snd item <=? snd x)%nat then x :: insert_desc item rest
      else item :: x :: rest
  end.

(** [sorted(d.items(), key=lambda x: x[1], reverse=True)]; the sort is
    stable. *)
Definition sorted_desc (d : list (string * nat)) : list (string * nat) :=
  fold_left (fun acc item => insert_desc item acc) d [].

End Dict.

(** ** Regular expressions: the fragment of [re] the program's patterns use *)

Module Re.

Inductive regex : Type :=
| Eps
| Lit (c : ascii)
| AnyChar
| Digit
| NotLit (c : ascii)
| Bol
| Eol
| Cat (r1 r2 : regex)
| Alt (r1 r2 : regex)
| Star (r : regex)
| Plus (r : regex)
| Opt (r : regex)
| Group (r : regex).

Definition quantify (a : regex) (s : string) : regex * string :=
  match s with
  | String "*" rest => (Star a, rest)
  | String "+" rest => (Plus a, rest)
  | String "?" rest => (Opt a, rest)
  | _ => (a, s)
  end.

Definition repeats (s : string) : bool :=
  match s with
  | String "*" _ | String "+" _ | String "?" _ => true
  | _ => false
  end.

(** Recursive-descent reading of a pattern; [None] is [re.error] or a
    construct outside the fragment. *)
Fixpoint parse_atom (fuel : nat) (s : string) {struct fuel}
  : option (regex * string) :=
  match fuel with
  | O => None
  | S n =>
      match s with
      | EmptyString => None
      | String "(" rest =>
          match parse_alt n rest with
          | Some (r, String ")" rest') => Some (Group r, rest')
          | _ => None
          end
      | String "[" (String "^" (String c (String "]" rest))) =>
          if Ascii.eqb c "\" || Ascii.eqb c "]" then None
          else Some (NotLit c, rest)
      | String "[" _ => None
      | String "\" (String "d" rest) => Some (Digit, rest)
      | String "\" (String "." rest) => Some (Lit ".", rest)
      | String "\" _ => None
      | String "." rest => Some (AnyChar, rest)
      | String "^" rest => Some (Bol, rest)
      | String "$" rest => Some (Eol, rest)
      | String "*" _ | String "+" _ | String "?" _
      | String ")" _ | String "|" _ | String "{" _ => None
      | String c rest => Some (Lit c, rest)
      end
  end
with parse_seq (fuel : nat) (s : string) {struct fuel}
  : option (regex * string) :=
  match fuel with
  | O => None
  | S n =>
      match s with
      | EmptyString => Some (Eps, s)
      | String "|" _ | String ")" _ => Some (Eps, s)
      | _ =>
          match parse_atom n s with
          | Some (a, rest) =>
              let '(q, rest1) := quantify a rest in
              if repeats rest1 then None
              else
                match parse_seq n rest1 with
                | Some (Eps, rest2) => Some (q, rest2)
                | Some (r, rest2) => Some (Cat q r, rest2)
                | None => None
                end
          | None => None
          end
      end
  end
with parse_alt (fuel : nat) (s : string) {struct fuel}
  : option (regex * string) :=
  match fuel with
  | O => None
  | S n =>
      match parse_seq n s with
      | Some (r1, String "|" rest) =>
          match parse_alt n rest with
          | Some (r2, rest') => Some (Alt r1 r2, rest')
          | None => None
          end
      | other => other
      end
  end.

Definition compile (pattern : string) : option regex :=
  match parse_alt (3 * String.length pattern + 3) pattern with
  | Some (r, EmptyString) => Some r
  | _ => None
  end.

Definition lower (x : ascii) : ascii :=
  let n := nat_of_ascii x in
  if (65 <=? n)%nat && (n <=? 90)%nat then ascii_of_nat (n + 32) else x.

(** A literal of the pattern against a character of the text. *)
Definition char_eq (ignorecase : bool) (c x : ascii) : bool :=
  if ignorecase then Ascii.eqb (lower c) (lower x) else Ascii.eqb c x.

Definition newline : ascii := ascii_of_nat 10.

Definition at_end (s : string) : bool :=
  match s with
  | EmptyString => true
  | String x EmptyString => Ascii.eqb x newline
  | _ => false
  end.

(** Backtracking matcher in continuation style: [matches r bol s k] holds
    when [r] matches a prefix of [s] and [k] accepts the rest.  [bol]
    tells whether [s] starts at the beginning of the subject. *)
Fixpoint matches (ic : bool) (r : regex) (bol : bool) (s : string)
    (k : bool -> string -> bool) {struct r} : bool :=
  let star (step : bool -> string -> (bool -> string -> bool) -> bool) :=
    fix loop (n : nat) (b : bool) (t : string) {struct n} : bool :=
      k b t ||
      match n with
      | O => false
      | S n' =>
          step b t (fun b' t' =>
            (String.length t' <? String.length t)%nat && loop n' b' t')
      end in
  match r with
  | Eps => k bol s
  | Lit c =>
      match s with
      | String x s' => char_eq ic c x && k false s'
      | EmptyString => false
      end
  | AnyChar =>
      match s with
      | String x s' => negb (Ascii.eqb x newline) && k false s'
      | EmptyString => false
      end
  | Digit =>
      match s with
      | String x s' => Str.is_digit x && k false s'
      | EmptyString => false
      end
  | NotLit c =>
      match s with
      | String x s' => negb (char_eq ic c x) && k false s'
      | EmptyString => false
      end
  | Bol => bol && k bol s
  | Eol => at_end s && k bol s
  | Cat r1 r2 => matches ic r1 bol s (fun b t => matches ic r2 b t k)
  | Alt r1 r2 => matches ic r1 bol s k || matches ic r2 bol s k
  | Star r1 => star (matches ic r1) (String.length s) bol s
  | Plus r1 =>
      matches ic r1 bol s (fun b t => star (matches ic r1) (String.length t) b t)
  | Opt r1 => matches ic r1 bol s k || k bol s
  | Group r1 => matches ic r1 bol s k
  end.

Fixpoint search_from (ic : bool) (r : regex) (bol : bool) (s : string) : bool :=
  matches ic r bol s (fun _ _ => true) ||
  match s with
  | EmptyString => false
  | String _ s' => search_from ic r false s'
  end.

(** [re.search(pattern, text)] as a truth value; [ignorecase] is the
    [re.IGNORECASE] flag. *)
Definition search (ignorecase : bool) (pattern text : string) : bool :=
  match compile pattern with
  | Some r => search_from ignorecase r true text
  | None => false
  end.

End Re.


(** ** Results of code that can raise *)

Inductive result (A : Type) : Type :=
| Ok (a : A)
| Raised.
Arguments Ok {A} a.
Arguments Raised {A}.

(** ** [urllib.parse.urlparse]

    The program reads two fields of the parse result.  The standard
    library's function is a parameter of the development
    ([None] stands for [ValueError]); [Url.urlparse] below is the reference
    instance used for concrete runs. *)

Record url_parts : Type := { netloc : string; path : string }.

Module Url.

Definition is_alpha (x : ascii) : bool :=
  let n := nat_of_ascii (Re.lower x) in (97 <=? n)%nat && (n <=? 122)%nat.

Definition scheme_char (x : ascii) : bool :=
  is_alpha x || Str.is_digit x ||
  Ascii.eqb x "+" || Ascii.eqb x "-" || Ascii.eqb x ".".

Fixpoint remove_chars (bad : ascii -> bool) (s : string) : string :=
  match s with
  | EmptyString => EmptyString
  | String x s' => if bad x then remove_chars bad s' else String x (remove_chars bad s')
  end.

Definition unsafe (x : ascii) : bool :=
  let n := nat_of_ascii x in
  (n =? 9)%nat || (n =? 10)%nat || (n =? 13)%nat.

(** Text before and after the first character satisfying [stop]; the
    second part starts with that character. *)
Fixpoint break_at (stop : ascii -> bool) (s : string) : string * string :=
  match s with
  | EmptyString => (EmptyString, EmptyString)
  | String x s' =>
      if stop x then (EmptyString, s)
      else let '(a, b) := break_at stop s' in (String x a, b)
  end.

Fixpoint all_chars (p : ascii -> bool) (s : string) : bool :=
  match s with
  | EmptyString => true
  | String x s' => p x && all_chars p s'
  end.

(** The scheme, when the text before the first colon is one. *)
Definition split_scheme (url : string) : string * string :=
  let '(pre, rest) := break_at (fun x => Ascii.eqb x ":") url in
  match pre, rest with
  | String c0 _, String _ after =>
      if is_alpha c0 && all_chars scheme_char pre
      then (Str.map Re.lower pre, after)
      else (EmptyString, url)
  | _, _ => (EmptyString, url)
  end.

Definition uses_params : list string :=
  [""; "ftp"; "hdl"; "prospero"; "http"; "imap"; "https"; "shttp"; "rtsp";
   "rtspu"; "sip"; "sips"; "mms"; "sftp"; "tel"].

(** [_splitparams]: the path ends at the first semicolon of its last
    segment. *)
Fixpoint strip_params (s : string) : string :=
  match s with
  | EmptyString => EmptyString
  | String x s' =>
      if Ascii.eqb x ";" && negb (Str.contains "/" s') then EmptyString
      else String x (strip_params s')
  end.

Definition urlparse (url0 : string) : option url_parts :=
  let url := remove_chars unsafe url0 in
  let '(scheme, rest) := split_scheme url in
  let '(loc, rest1) :=
    match rest with
    | String "/" (String "/" r) =>
        break_at (fun x => Ascii.eqb x "/" || Ascii.eqb x "?" || Ascii.eqb x "#") r
    | _ => (EmptyString, rest)
    end in
  if xorb (Str.contains "[" loc) (Str.contains "]" loc) then None
  else
    let p := fst (break_at (fun x => Ascii.eqb x "?")
                    (fst (break_at (fun x => Ascii.eqb x "#") rest1))) in
    let p' := if existsb (String.eqb scheme) uses_params then strip_params p else p in
    Some {| netloc := loc; path := p' |}.

End Url.

(** ** ContentClassifier *)

Module ContentClassifier.

Definition high_priority_patterns : list string :=
  [ "/ead(/.*)?$";
    "/conteudos(/.*)?$";
    "/educacao-a-distancia(/.*)?$";
    "/servicos(/.*)?$";
    "/eventos(/.*)?$";
    "/pwa/produtos(/.*)?$";
    "/podcast(/.*)?$";
    "/receitas(/.*)?$";
    "/calculadoras(/.*)?$";
    "/acervo(/.*)?$" ].

Definition medium_priority_patterns : list string :=
  [ "/sobre-nos";
    "/perguntas-frequentes";
    "/cadastro";
    "/meus-cursos";
    "/meus-certificados" ].

Definition file_download_patterns : list string :=
  [ "\.(pdf|doc|docx|ppt|pptx|xls|xlsx)$";
    "\.(zip|rar|tar|gz)$";
    "\.(mp4|mp3|avi|mov|wmv)$";
    "/download/";
    "/materials/";
    "/recursos/";
    "/arquivos/" ].

Definition exclude_patterns : list string :=
  [ "^tel:";
    "^mailto:";
    "^#";
    "/user/logout";
    "utm_source=";
    "facebook\.com|twitter\.com|instagram\.com|linkedin\.com" ].

Definition _extract_category (pattern url : string) : string :=
  if Str.contains "/ead" pattern then "education"
  else if Str.contains "/conteudos" pattern then "content"
  else if Str.contains "/servicos" pattern then "services"
  else if Str.contains "/eventos" pattern then "events"
  else if Str.contains "/pwa/produtos" pattern then "products"
  else if Str.contains "/podcast" pattern then "podcast"
  else if Str.contains "/receitas" pattern then "recipes"
  else if Str.contains "/calculadoras" pattern then "calculators"
  else if Str.contains "/acervo" pattern then "archive"
  else "high_priority".

(** [any(re.search(p, url, re.IGNORECASE) for p in patterns)] *)
Definition matches_any (patterns : list string) (url : string) : bool :=
  existsb (fun p => Re.search true p url) patterns.

(** The first pattern of the list that the loop finds matching. *)
Definition first_match (patterns : list string) (url : string) : option string :=
  List.find (fun p => Re.search true p url) patterns.

Section Classifier.
Variable urlparse : string -> option url_parts.
Variable base_domain : string.

Definition classify_url (url : string) : result (string * nat) :=
  if String.eqb url "" || negb (Str.startswith url "http") then Ok ("invalid", 0%nat)
  else
    match urlparse url with
    | None => Raised
    | Some parsed =>
        if negb (Str.contains base_domain (netloc parsed)) then Ok ("external", 0%nat)
        else if matches_any exclude_patterns url then Ok ("excluded", 0%nat)
        else if matches_any file_download_patterns url then Ok ("file_downloads", 1%nat)
        else
          match first_match high_priority_patterns url with
          | Some pattern => Ok (_extract_category pattern url, 1%nat)
          | None =>
              if matches_any medium_priority_patterns url
              then Ok ("medium_priority", 1%nat)
              else Ok ("general", 1%nat)
          end
    end.
End Classifier.

End ContentClassifier.

(** ** What the page-fetch service returns *)

(** An entry of [response.links]: a plain string, or a dict read through
    [link.get('href', link.get('url', ''))]. *)
Inductive link : Type :=
| LinkStr (s : string)
| LinkDict (href url : option string).

Definition link_text (l : link) : string :=
  match l with
  | LinkStr s => s
  | LinkDict (Some h) _ => h
  | LinkDict None (Some u) => u
  | LinkDict None None => ""
  end.

(** The attributes of a scrape result that the program looks at; [None] is
    an attribute that is absent. *)
Record response : Type := {
  links : option (list link);
  markdown : option string
}.

(** [hasattr(r, 'links') and r.links] *)
Definition has_links (r : response) : bool :=
  match links r with
  | Some (_ :: _) => true
  | _ => false
  end.

(** ** DiskStorage: [data/mapsite.json] and [data/scrapped/] *)

Module DiskStorage.

Record url_entry : Type := {
  entry_url : string;
  entry_category : string;
  entry_phase : string;
  entry_depth : nat;
  discovered_at : string
}.

Record mapsite_data : Type := {
  discovered_urls : list url_entry;
  total_count : nat;
  last_updated : string
}.

Record scraped_content : Type := {
  content_url : string;
  content_phase : string;
  content_depth : nat;
  content_category : string;
  scraped_at : string;
  firecrawl_response : response
}.

(** The two things on disk: the mapsite file and the directory of scraped
    files, keyed by file name. *)
Record t : Type := {
  mapsite_file : mapsite_data;
  scrapped_dir : gmap string scraped_content
}.

Definition empty_mapsite (now : string) : mapsite_data :=
  {| discovered_urls := []; total_count := 0; last_updated := now |}.

(** [__init__]: the mapsite file is created when it does not exist. *)
Definition init (now : string) (on_disk : option t) : t :=
  match on_disk with
  | Some d => d
  | None => {| mapsite_file := empty_mapsite now; scrapped_dir := ∅ |}
  end.

Definition _load_mapsite (d : t) : mapsite_data := mapsite_file d.

Definition _save_mapsite_update (m : mapsite_data) (d : t) : t :=
  {| mapsite_file := m; scrapped_dir := scrapped_dir d |}.

Definition existing_urls (m : mapsite_data) : gset string :=
  list_to_set (map entry_url (discovered_urls m)).

(** The body run under [mapsite_lock]; both time stamps of one call are
    the reading [now]. *)
Definition add_url_to_mapsite (now url category phase : string) (depth : nat)
    (d : t) : bool * t :=
  let mapsite_data := _load_mapsite d in
  if bool_decide (url ∉ existing_urls mapsite_data) then
    let urls := discovered_urls mapsite_data ++
                [ {| entry_url := url; entry_category := category;
                     entry_phase := phase; entry_depth := depth;
                     discovered_at := now |} ] in
    (true, _save_mapsite_update
             {| discovered_urls := urls;
                total_count := length urls;
                last_updated := now |} d)
  else (false, d).

Definition is_url_already_discovered (d : t) (url : string) : bool :=
  bool_decide (url ∈ existing_urls (_load_mapsite d)).

Definition count_by (key : url_entry → string) (l : list url_entry)
  : list (string * nat) :=
  fold_left (fun counts item => Dict.bump (key item) counts) l [].

Record stats : Type := {
  total_urls : nat;
  categories : list (string * nat);
  phases : list (string * nat);
  stats_last_updated : string
}.

Definition get_current_stats (d : t) : stats :=
  let mapsite_data := _load_mapsite d in
  {| total_urls := total_count mapsite_data;
     categories := count_by entry_category (discovered_urls mapsite_data);
     phases := count_by entry_phase (discovered_urls mapsite_data);
     stats_last_updated := last_updated mapsite_data |}.

Section Files.
Variable urlparse : string → option url_parts.
Variable md5_hexdigest : string → string.

Definition slash_to_underscore (x : ascii) : ascii :=
  if Ascii.eqb x "/" || Ascii.eqb x "?" || Ascii.eqb x "&" then "_"%char else x.

Fixpoint take (n : nat) (s : string) : string :=
  match n, s with
  | S n', String x s' => String x (take n' s')
  | _, _ => EmptyString
  end.

Definition _url_to_filename (url : string) : result string :=
  match urlparse url with
  | None => Raised
  | Some parsed =>
      Ok (md5_hexdigest url +:+ "_" +:+
          take 50 (Str.map slash_to_underscore (path parsed)) +:+ ".json")
  end.

(** Writes one file; any exception is caught and reported as [false]. *)
Definition save_scraped_content (now url : string) (r : response)
    (phase : string) (depth : nat) (category : string) (d : t) : bool * t :=
  match _url_to_filename url with
  | Raised => (false, d)
  | Ok filename =>
      (true,
       {| mapsite_file := mapsite_file d;
          scrapped_dir :=
            <[ filename := {| content_url := url; content_phase := phase;
                              content_depth := depth; content_category := category;
                              scraped_at := now; firecrawl_response := r |} ]>
            (scrapped_dir d) |})
  end.
End Files.

(** What every mapsite written by this code satisfies. *)
Definition consistent (d : t) : Prop :=
  total_count (mapsite_file d) = length (discovered_urls (mapsite_file d)).

Definition records_for (url : string) (d : t) : list url_entry :=
  filter (fun e => entry_url e = url) (discovered_urls (mapsite_file d)).

End DiskStorage.

(** ** URLPatternAnalyzer *)

Module URLPatternAnalyzer.

(** The shapes [_extract_pattern] tries, in order, with the key each one
    is filed under. *)
Definition patterns : list (string * string) :=
  [ ("/ead/[^/]+/[^/]+-(\d+)", "/ead/category/item-{id}");
    ("/conteudos/[^/]+/[^/]+-(\d+)", "/conteudos/category/item-{id}");
    ("/node/(\d+)", "/node/{id}");
    ("/produtos/[^/]+-(\d+)", "/produtos/item-{id}") ].

(** [re.search(r'-(\d+)', url)] and its [group(1)]: the digits after the
    leftmost dash that is followed by a digit. *)
Fixpoint dash_digits (url : string) : option string :=
  match url with
  | EmptyString => None
  | String x rest =>
      if Ascii.eqb x "-" then
        match Str.digit_run rest with
        | EmptyString => dash_digits rest
        | ds => Some ds
        end
      else dash_digits rest
  end.

Definition extract_ids (examples : list string) : list Z :=
  omap (fun url => Str.int <$> dash_digits url) examples.

Definition minimum (ids : list Z) : Z :=
  match ids with
  | [] => 0
  | i :: rest => fold_left Z.min rest i
  end.

(** [range(a, b)] *)
Definition range (a b : Z) : list Z := seqZ a (b - a)%Z.

Definition _generate_pattern_variations (pattern : string) (examples : list string)
  : list string :=
  let ids := extract_ids examples in
  if (3 <=? length ids)%nat then
    let min_id := minimum ids in
    let start_id := Z.max 1 (min_id - 10) in
    let end_id := (min_id + 50)%Z in
    let base_url := Str.rsplit1_head "-" (hd "" examples) in
    (fun i => base_url +:+ "-" +:+ pretty i) <$>
      filter (fun i => i ∉ ids) (range start_id end_id)
  else [].

Section Analyzer.
Variable urlparse : string → option url_parts.

Definition _extract_pattern (url : string) : result (option string) :=
  match urlparse url with
  | None => Raised
  | Some parsed =>
      Ok (snd <$> List.find (fun '(regex, _) => Re.search false regex (path parsed))
                            patterns)
  end.

(** The grouping loop; an exception of [urlparse] leaves it. *)
Fixpoint group_urls (urls : list string) (groups : list (string * list string))
  : result (list (string * list string)) :=
  match urls with
  | [] => Ok groups
  | url :: rest =>
      match _extract_pattern url with
      | Raised => Raised
      | Ok None => group_urls rest groups
      | Ok (Some pattern) => group_urls rest (Dict.append_to pattern url groups)
      end
  end.

Definition suggest (groups : list (string * list string))
  : list (string * list string) :=
  omap (fun '(pattern, pattern_urls) =>
          if (3 <=? length pattern_urls)%nat then
            match _generate_pattern_variations pattern pattern_urls with
            | [] => None
            | variations => Some (pattern, variations)
            end
          else None)
       groups.

(** [discovered_patterns] is the analyzer's field; the second component
    of the result is its value afterwards. *)
Definition analyze_patterns (urls : list string)
    (discovered_patterns : list (string * list string))
  : result (list (string * list string) * list (string * list string)) :=
  match group_urls urls discovered_patterns with
  | Raised => Raised
  | Ok groups => Ok (suggest groups, groups)
  end.
End Analyzer.

End URLPatternAnalyzer.

(** ** The engine's surroundings *)

(** A call made to a collaborator. *)
Inductive request : Type :=
| Scrape (url : string)
| Interact (url : string).

(** Everything the engine is given: the settings, the standard library
    functions it calls and the collaborators.  A collaborator answers as a
    function of the calls made before, so the site may change under the
    crawl. *)
Record Collaborators : Type := {
  base_url : string;
  urlparse : string → option url_parts;
  md5_hexdigest : string → string;
  strftime : nat → string;
  initialize_session : bool;
  scrape_url : list request → string → result response;
  extract_interactive_urls : list request → string → list string
}.

(** ** UltraDeepMapsite *)

Module UltraDeepMapsite.

Record t : Type := {
  storage : DiskStorage.t;
  crawl_queue : list (string * nat * string);
  queued_urls : gset string;
  failed_urls : gset string;
  discovered_patterns : list (string * list string);
  (** history, for stating properties: calls to collaborators, URLs taken
      from the queue, and the number of clock readings so far *)
  requests : list request;
  popped : list string;
  clock : nat
}.

Definition set_storage (d : DiskStorage.t) (s : t) : t :=
  {| storage := d; crawl_queue := crawl_queue s; queued_urls := queued_urls s;
     failed_urls := failed_urls s; discovered_patterns := discovered_patterns s;
     requests := requests s; popped := popped s; clock := clock s |}.

Definition set_queue (q : list (string * nat * string)) (qs : gset string) (s : t) : t :=
  {| storage := storage s; crawl_queue := q; queued_urls := qs;
     failed_urls := failed_urls s; discovered_patterns := discovered_patterns s;
     requests := requests s; popped := popped s; clock := clock s |}.

Definition set_failed (f : gset string) (s : t) : t :=
  {| storage := storage s; crawl_queue := crawl_queue s; queued_urls := queued_urls s;
     failed_urls := f; discovered_patterns := discovered_patterns s;
     requests := requests s; popped := popped s; clock := clock s |}.

Definition set_patterns (p : list (string * list string)) (s : t) : t :=
  {| storage := storage s; crawl_queue := crawl_queue s; queued_urls := queued_urls s;
     failed_urls := failed_urls s; discovered_patterns := p;
     requests := requests s; popped := popped s; clock := clock s |}.

Definition log_request (r : request) (s : t) : t :=
  {| storage := storage s; crawl_queue := crawl_queue s; queued_urls := queued_urls s;
     failed_urls := failed_urls s; discovered_patterns := discovered_patterns s;
     requests := requests s ++ [r]; popped := popped s; clock := clock s |}.

Definition log_popped (url : string) (q : list (string * nat * string)) (s : t) : t :=
  {| storage := storage s; crawl_queue := q; queued_urls := queued_urls s;
     failed_urls := failed_urls s; discovered_patterns := discovered_patterns s;
     requests := requests s; popped := popped s ++ [url]; clock := clock s |}.

Definition advance_clock (s : t) : t :=
  {| storage := storage s; crawl_queue := crawl_queue s; queued_urls := queued_urls s;
     failed_urls := failed_urls s; discovered_patterns := discovered_patterns s;
     requests := requests s; popped := popped s; clock := S (clock s) |}.

(** *** Computations on the engine that may raise *)

Inductive outcome (A : Type) : Type :=
| Returns (a : A) (s : t)
| Raises (s : t).
Arguments Returns {A} a s.
Arguments Raises {A} s.

Definition M (A : Type) : Type := t → outcome A.

Definition ret {A} (a : A) : M A := fun s => Returns a s.

Definition bind {A B} (c : M A) (k : A → M B) : M B :=
  fun s => match c s with
           | Returns a s' => k a s'
           | Raises s' => Raises s'
           end.

(** [try: c  except Exception: handler] *)
Definition try_except {A} (c handler : M A) : M A :=
  fun s => match c s with
           | Returns a s' => Returns a s'
           | Raises s' => handler s'
           end.

Definition lift {A} (r : result A) : M A :=
  fun s => match r with
           | Ok a => Returns a s
           | Raised => Raises s
           end.

Definition state_of {A} (o : outcome A) : t :=
  match o with
  | Returns _ s => s
  | Raises s => s
  end.

Definition value_of {A} (o : outcome A) : option A :=
  match o with
  | Returns a _ => Some a
  | Raises _ => None
  end.

Declare Scope engine_scope.
Delimit Scope engine_scope with engine.
Notation "x ⇐ c ;; k" := (bind c (fun x => k))
  (at level 100, c at next level, right associativity) : engine_scope.
Notation "c ;;; k" := (bind c (fun _ => k))
  (at level 100, right associativity) : engine_scope.
Local Open Scope engine_scope.

Definition base_domain_of (base : string) : string :=
  Str.before_first "/" (Str.replace "http://" "" (Str.replace "https://" "" base)).

Section Engine.
Variable env : Collaborators.

Definition base_domain : string := base_domain_of (base_url env).

(** [__init__] on what the disk holds. *)
Definition init (on_disk : option DiskStorage.t) : t :=
  {| storage := DiskStorage.init (strftime env 0) on_disk;
     crawl_queue := []; queued_urls := ∅; failed_urls := ∅;
     discovered_patterns := [];
     requests := []; popped := []; clock := 1 |}.

Definition classify_url (url : string) : M (string * nat) :=
  lift (ContentClassifier.classify_url (urlparse env) base_domain url).

(** [time.strftime(...)]: the next reading of the clock. *)
Definition now : M string :=
  fun s => Returns (strftime env (clock s)) (advance_clock s).

Definition add_url_to_mapsite (url category phase : string) (depth : nat) : M bool :=
  stamp ⇐ now ;;
  fun s =>
    let '(added, d) :=
      DiskStorage.add_url_to_mapsite stamp url category phase depth (storage s) in
    Returns added (set_storage d s).

Definition save_scraped_content (url : string) (r : response) (phase : string)
    (depth : nat) (category : string) : M bool :=
  stamp ⇐ now ;;
  fun s =>
    let '(saved, d) :=
      DiskStorage.save_scraped_content (urlparse env) (md5_hexdigest env)
        stamp url r phase depth category (storage s) in
    Returns saved (set_storage d s).

Definition is_url_already_discovered (url : string) : M bool :=
  fun s => Returns (DiskStorage.is_url_already_discovered (storage s) url) s.

(** [self.firecrawl.scrape_url(url=..., ...)] *)
Definition scrape (url : string) : M response :=
  fun s =>
    match scrape_url env (requests s) url with
    | Ok r => Returns r (log_request (Scrape url) s)
    | Raised => Raises (log_request (Scrape url) s)
    end.

(** The relative-URL branch of the link loop; [None] is [continue]. *)
Definition absolute (url : string) : option string :=
  if Str.startswith url "/" then Some (Str.rstrip "/" (base_url env) +:+ url)
  else if Str.startswith url "../" then None
  else if negb (Str.startswith url "http")
       then Some (Str.rstrip "/" (base_url env) +:+ "/" +:+ Str.lstrip "/" url)
       else Some url.

Fixpoint process_links (ls : list link) (phase : string) (depth : nat)
    (processed_urls : list string) : M (list string) :=
  match ls with
  | [] => ret processed_urls
  | l :: rest =>
      let url := link_text l in
      if String.eqb url "" then process_links rest phase depth processed_urls
      else
        match absolute url with
        | None => process_links rest phase depth processed_urls
        | Some url =>
            classified ⇐ classify_url url ;;
            let '(link_category, priority) := classified in
            if (0 <? priority)%nat && bool_decide (url ∉ processed_urls) then
              add_url_to_mapsite url link_category phase (depth + 1) ;;;
              process_links rest phase depth (processed_urls ++ [url])
            else process_links rest phase depth processed_urls
        end
  end.

Definition _process_complete_response (firecrawl_response : response)
    (source_url phase : string) (depth : nat) (category : string) : M (list string) :=
  save_scraped_content source_url firecrawl_response phase depth category ;;;
  if negb (has_links firecrawl_response) then ret []
  else process_links (default [] (links firecrawl_response)) phase depth [].

Definition _crawl_single_url (url : string) (depth : nat) (category phase : string)
  : M (list string) :=
  try_except
    (result ⇐ scrape url ;;
     new_urls ⇐ _process_complete_response result url phase depth category ;;
     fun s =>
       Returns (filter (fun u => DiskStorage.is_url_already_discovered (storage s) u = false)
                       new_urls) s)
    (fun s => Returns [] (set_failed ({[url]} ∪ failed_urls s) s)).

(** [crawl_queue.append((url, depth, category)); queued_urls.add(url)] *)
Definition enqueue (url : string) (depth : nat) (category : string) : M unit :=
  fun s => Returns tt (set_queue (crawl_queue s ++ [(url, depth, category)])
                                 ({[url]} ∪ queued_urls s) s).

Fixpoint seed_queue (foundation_urls : list string) : M unit :=
  match foundation_urls with
  | [] => ret tt
  | url :: rest =>
      classified ⇐ classify_url url ;;
      let '(category, priority) := classified in
      (if (0 <? priority)%nat then enqueue url 1 category else ret tt) ;;;
      seed_queue rest
  end.

Definition phase1_foundation_discovery : M (list string) :=
  try_except
    (result ⇐ scrape (base_url env) ;;
     if negb (has_links result) then ret []
     else
       foundation_urls ⇐
         _process_complete_response result (base_url env) "phase1_foundation" 0 "homepage" ;;
       seed_queue foundation_urls ;;;
       ret foundation_urls)
    (ret []).

(** The queueing loop over the URLs a crawl returned. *)
Fixpoint enqueue_new (new_urls : list string) (depth : nat) : M unit :=
  match new_urls with
  | [] => ret tt
  | new_url :: rest =>
      known ⇐ is_url_already_discovered new_url ;;
      (fun s =>
         if negb known && bool_decide (new_url ∉ queued_urls s) then
           (classified ⇐ classify_url new_url ;;
            let '(new_category, priority) := classified in
            if (0 <? priority)%nat then enqueue new_url (depth + 1) new_category
            else ret tt) s
         else Returns tt s) ;;;
      enqueue_new rest depth
  end.

Definition discard_queued (url : string) : M unit :=
  fun s => Returns tt (set_queue (crawl_queue s) (queued_urls s ∖ {[url]}) s).

(** One turn of the [while self.crawl_queue] loop on the entry taken
    from the front. *)
Definition phase2_turn (entry : string * nat * string) (phase2_urls : list string)
  : M (list string) :=
  let '(url, depth, category) := entry in
  known ⇐ is_url_already_discovered url ;;
  if known then ret phase2_urls
  else
    new_urls ⇐ _crawl_single_url url depth category "phase2_recursive" ;;
    (match new_urls with
     | [] => ret tt
     | _ => enqueue_new new_urls depth
     end) ;;;
    discard_queued url ;;;
    ret (match new_urls with [] => phase2_urls | _ => phase2_urls ++ new_urls end).

(** The loop, with a bound on the number of turns; [None] when the bound
    is reached with entries still queued. *)
Fixpoint phase2_loop (fuel : nat) (phase2_urls : list string)
  : M (option (list string)) :=
  fun s =>
    match crawl_queue s with
    | [] => Returns (Some phase2_urls) s
    | entry :: rest =>
        match fuel with
        | O => Returns None s
        | S n =>
            (acc ⇐ phase2_turn entry phase2_urls ;; phase2_loop n acc)
              (log_popped (fst (fst entry)) rest s)
        end
    end.

Definition phase2_recursive_discovery (fuel : nat) : M (option (list string)) :=
  phase2_loop fuel [].

(** *** Phase 3 *)

Definition _select_interactive_targets (s : t) : list (string * string) :=
  let category_urls :=
    fold_left (fun d item =>
                 Dict.append_to (DiskStorage.entry_category item)
                                (DiskStorage.entry_url item) d)
              (DiskStorage.discovered_urls (DiskStorage._load_mapsite (storage s))) [] in
  flat_map (fun '(category, urls) => (fun url => (url, category)) <$> take 10 urls)
           category_urls.

(** [interaction_engine.extract_interactive_urls(...)]; the collaborator
    catches its own exceptions. *)
Definition interact (url : string) : M (list string) :=
  fun s => Returns (extract_interactive_urls env (requests s) url)
                   (log_request (Interact url) s).

Fixpoint merge_interactive (interactive_urls new_urls : list string) : M (list string) :=
  match interactive_urls with
  | [] => ret new_urls
  | int_url :: rest =>
      fun s =>
        if bool_decide (int_url ∉
             DiskStorage.existing_urls (DiskStorage._load_mapsite (storage s)))
        then
          (classified ⇐ classify_url int_url ;;
           let '(category_type, priority) := classified in
           if (0 <? priority)%nat then
             add_url_to_mapsite int_url category_type "phase3_interactive" 0 ;;;
             merge_interactive rest (new_urls ++ [int_url])
           else merge_interactive rest new_urls) s
        else merge_interactive rest new_urls s
  end.

Fixpoint interactive_loop (targets : list (string * string)) (phase3_urls : list string)
  : M (list string) :=
  match targets with
  | [] => ret phase3_urls
  | (url, category) :: rest =>
      acc ⇐ try_except
              (interactive_urls ⇐ interact url ;;
               new_urls ⇐ merge_interactive interactive_urls [] ;;
               ret (phase3_urls ++ new_urls))
              (ret phase3_urls) ;;
      interactive_loop rest acc
  end.

Definition phase3_interactive_discovery : M (list string) :=
  fun s => interactive_loop (_select_interactive_targets s) [] s.

(** *** Phase 4 *)

(** [hasattr(r, 'markdown') and r.markdown and len(r.markdown.strip()) > 100] *)
Definition meaningful (r : response) : bool :=
  match markdown r with
  | Some m => negb (String.eqb m "") && (100 <? String.length (Str.strip m))%nat
  | None => false
  end.

Fixpoint test_suggestions (suggestions valid_urls : list string) : M (list string) :=
  match suggestions with
  | [] => ret valid_urls
  | suggested_url :: rest =>
      acc ⇐ try_except
              (result ⇐ scrape suggested_url ;;
               if meaningful result then
                 try_except
                   (classified ⇐ classify_url suggested_url ;;
                    _process_complete_response result suggested_url
                      "phase4_patterns" 0 (fst classified) ;;;
                    ret tt)
                   (ret tt) ;;;
                 ret (valid_urls ++ [suggested_url])
               else ret valid_urls)
              (ret valid_urls) ;;
      test_suggestions rest acc
  end.

Fixpoint test_patterns (patterns : list (string * list string)) (phase4_urls : list string)
  : M (list string) :=
  match patterns with
  | [] => ret phase4_urls
  | (pattern, suggestions) :: rest =>
      valid_urls ⇐ test_suggestions suggestions [] ;;
      test_patterns rest (phase4_urls ++ valid_urls)
  end.

Definition phase4_pattern_completion : M (list string) :=
  fun s =>
    let all_discovered :=
      DiskStorage.entry_url <$>
        DiskStorage.discovered_urls (DiskStorage._load_mapsite (storage s)) in
    match URLPatternAnalyzer.analyze_patterns (urlparse env) all_discovered
            (discovered_patterns s) with
    | Raised => Raises s
    | Ok (patterns, groups) =>
        match patterns with
        | [] => Returns [] (set_patterns groups s)
        | _ => test_patterns patterns [] (set_patterns groups s)
        end
    end.

(** *** The final summary *)

(** The lines of the summary that carry data; the fixed banner lines
    are left out. *)
Inductive line : Type :=
| BaseUrl (url : string)
| TotalUrlsDiscovered (n : nat)
| CategoryCount (category : string) (n : nat)
| PhaseCount (phase : string) (n : nat)
| LastUpdated (stamp : string).

(** Returns what it prints together with [total_urls]. *)
Definition save_ultra_comprehensive_results : M (list line * nat) :=
  fun s =>
    let final_stats := DiskStorage.get_current_stats (storage s) in
    let total_urls := DiskStorage.total_urls final_stats in
    Returns
      ([BaseUrl (base_url env); TotalUrlsDiscovered total_urls] ++
       ((fun '(category, count) => CategoryCount category count) <$>
          Dict.sorted_desc (DiskStorage.categories final_stats)) ++
       ((fun '(phase, count) => PhaseCount phase count) <$>
          Dict.sorted_desc (DiskStorage.phases final_stats)) ++
       [LastUpdated (DiskStorage.stats_last_updated final_stats)],
       total_urls) s.

(** *** The whole run *)

Inductive run_result : Type :=
| Completed (summary : list line) (total_discovered : nat)   (* returns True *)
| Aborted                                                    (* returns False *)
| StillCrawling.                                             (* bound of phase 2 reached *)

Definition run_ultra_deep_discovery (fuel : nat) : M run_result :=
  if negb (initialize_session env) then ret Aborted
  else
    try_except
      (phase1_urls ⇐ phase1_foundation_discovery ;;
       match phase1_urls with
       | [] => ret Aborted
       | _ =>
           phase2_urls ⇐ phase2_recursive_discovery fuel ;;
           match phase2_urls with
           | None => ret StillCrawling
           | Some _ =>
               phase3_interactive_discovery ;;;
               phase4_pattern_completion ;;;
               report ⇐ save_ultra_comprehensive_results ;;
               ret (Completed (fst report) (snd report))
           end
       end)
      (ret Aborted).

End Engine.

End UltraDeepMapsite.

(** ** Several threads calling [add_url_to_mapsite] on one store *)

(** Each thread runs the body of [add_url_to_mapsite] statement by
    statement.  Statements of different threads interleave in any order;
    [with self.mapsite_lock] lets a thread in only while no other thread is
    inside. *)
Module Concurrent.
Import DiskStorage.

(** The arguments of one call, with the clock reading it will take. *)
Record call : Type := {
  call_now : string;
  call_url : string;
  call_category : string;
  call_phase : string;
  call_depth : nat
}.

(** Where a thread stands in the body. *)
Inductive pc : Type :=
| AtLock                        (* before [with self.mapsite_lock] *)
| Locked                        (* inside, before [_load_mapsite] *)
| Loaded (m : mapsite_data)     (* [mapsite_data] read, before the test *)
| Appended (m : mapsite_data)   (* entry appended in memory, before the save *)
| Leaving (r : bool)            (* at [return r], still inside *)
| Returned (r : bool).          (* the lock released, [r] returned *)

Record world : Type := {
  disk : DiskStorage.t;
  lock_held : bool;
  threads : list (call * pc)
}.

(** The in-memory update of lines 505-515. *)
Definition appended (c : call) (m : mapsite_data) : mapsite_data :=
  let urls := discovered_urls m ++
              [ {| entry_url := call_url c; entry_category := call_category c;
                   entry_phase := call_phase c; entry_depth := call_depth c;
                   discovered_at := call_now c |} ] in
  {| discovered_urls := urls; total_count := length urls; last_updated := call_now c |}.

(** The next statement of a thread; [None] when it cannot move: it waits
    for the lock or has returned. *)
Definition thread_step (c : call) (p : pc) (d : DiskStorage.t) (held : bool)
  : option (pc * DiskStorage.t * bool) :=
  match p with
  | AtLock => if held then None else Some (Locked, d, true)
  | Locked => Some (Loaded (_load_mapsite d), d, held)
  | Loaded m =>
      if bool_decide (call_url c ∉ existing_urls m)
      then Some (Appended (appended c m), d, held)
      else Some (Leaving false, d, held)
  | Appended m => Some (Leaving true, _save_mapsite_update m d, held)
  | Leaving r => Some (Returned r, d, false)
  | Returned _ => None
  end.

(** Thread [i] runs its next statement. *)
Definition step (i : nat) (w : world) : option world :=
  match threads w !! i with
  | Some (c, p) =>
      match thread_step c p (disk w) (lock_held w) with
      | Some (p', d', held') =>
          Some {| disk := d'; lock_held := held'; threads := <[i := (c, p')]> (threads w) |}
      | None => None
      end
  | None => None
  end.

(** A schedule names the thread that is given the processor at each moment;
    a thread that cannot move leaves the world as it is. *)
Fixpoint run (schedule : list nat) (w : world) : world :=
  match schedule with
  | [] => w
  | i :: rest => run rest (default w (step i w))
  end.

Definition start (d : DiskStorage.t) (calls : list call) : world :=
  {| disk := d; lock_held := false; threads := (fun c => (c, AtLock)) <$> calls |}.

(** The number of threads whose position satisfies [f]. *)
Fixpoint count (f : pc → bool) (ts : list (call * pc)) : nat :=
  match ts with
  | [] => 0
  | (_, p) :: rest => (if f p then 1 else 0) + count f rest
  end.

Definition has_returned (r : bool) (p : pc) : bool :=
  match p with
  | Returned r' => Bool.eqb r r'
  | _ => false
  end.

Definition is_returned (p : pc) : bool :=
  match p with
  | Returned _ => true
  | _ => false
  end.

Definition finished (w : world) : Prop :=
  count is_returned (threads w) = length (threads w).

Definition inside (p : pc) : bool :=
  match p with
  | Locked | Loaded _ | Appended _ | Leaving _ => true
  | AtLock | Returned _ => false
  end.

(** The result a thread has settled on. *)
Definition decided (r : bool) (p : pc) : bool :=
  match p with
  | Leaving r' | Returned r' => Bool.eqb r r'
  | _ => false
  end.

(** How many statements a thread has run. *)
Definition progress (p : pc) : nat :=
  match p with
  | AtLock => 0
  | Locked => 1
  | Loaded _ => 2
  | Appended _ => 3
  | Leaving true => 4
  | Leaving false => 3
  | Returned true => 5
  | Returned false => 4
  end.

Fixpoint statements_run (ts : list (call * pc)) : nat :=
  match ts with
  | [] => 0
  | (_, p) :: rest => progress p + statements_run rest
  end.

(** What holds in every world the threads can reach when they all add
    [url]. *)
Record invariant (url : string) (w : world) : Prop := {
  same_url : Forall (fun t : call * pc => call_url t.1 = url) (threads w);
  one_inside : count inside (threads w) = if lock_held w then 1%nat else 0%nat;
  loaded_current : ∀ i c m, threads w !! i = Some (c, Loaded m) → m = mapsite_file (disk w);
  appended_current : ∀ i c m, threads w !! i = Some (c, Appended m) →
    m = appended c (mapsite_file (disk w)) ∧
    is_url_already_discovered (disk w) url = false;
  records_decided : length (records_for url (disk w)) = count (decided true) (threads w);
  refused_known : (0 < count (decided false) (threads w))%nat →
    is_url_already_discovered (disk w) url = true;
  at_most_one : (length (records_for url (disk w)) ≤ 1)%nat
}.

End Concurrent.

(** * Scenarios *)

Module Scenario.

Definition site : string := "https://www.example.com".

Definition page (ls : list string) : response :=
  {| links := Some (LinkStr <$> ls); markdown := None |}.

Definition blank : response := {| links := None; markdown := None |}.

(** A site whose first page fetched carries the given links; every later
    fetch comes back without links, and interaction surfaces nothing. *)
Definition env_with (seed_links : list string) : Collaborators :=
  {| base_url := site;
     urlparse := Url.urlparse;
     md5_hexdigest := fun url => url;
     strftime := fun n => pretty n;
     initialize_session := true;
     scrape_url := fun reqs _ =>
                     match reqs with
                     | [] => Ok (page seed_links)
                     | _ => Ok blank
                     end;
     extract_interactive_urls := fun _ _ => [] |}.

(** The same site when the fetch of the seed page fails. *)
Definition env_down : Collaborators :=
  {| base_url := site;
     urlparse := Url.urlparse;
     md5_hexdigest := fun url => url;
     strftime := fun n => pretty n;
     initialize_session := true;
     scrape_url := fun _ _ => Raised;
     extract_interactive_urls := fun _ _ => [] |}.

(** A site that answers the first fetch with the given links and fails
    every later one. *)
Definition env_flaky (seed_links : list string) : Collaborators :=
  {| base_url := site;
     urlparse := Url.urlparse;
     md5_hexdigest := fun url => url;
     strftime := fun n => pretty n;
     initialize_session := true;
     scrape_url := fun reqs _ =>
                     match reqs with
                     | [] => Ok (page seed_links)
                     | _ => Raised
                     end;
     extract_interactive_urls := fun _ _ => [] |}.

(** The disk an earlier run left behind, holding one URL of the site. *)
Definition disk_with (url : string) : DiskStorage.t :=
  (DiskStorage.add_url_to_mapsite "0" url "general" "phase1_foundation" 1
     (DiskStorage.init "0" None)).2.

Definition seed_links : list string := ["/a"; "/b"; "http://other.com/c"; "tel:123"].

Definition item_urls : list string :=
  ["/ead/curso/item-10"; "/ead/curso/item-12"; "/ead/curso/item-15"].

Definition node_urls : list string := ["/node/1"; "/node/2"; "/node/3"].

(** What the analyzer proposes for a list of URLs, starting with nothing
    filed. *)
Definition proposals (urls : list string) : list (string * list string) :=
  match URLPatternAnalyzer.analyze_patterns Url.urlparse urls [] with
  | Ok (suggested, _) => suggested
  | Raised => []
  end.

(** The candidates [base-i] for [i] from [first] to [last], the observed
    identifiers left out. *)
Definition candidates (base : string) (first last : Z) (observed : list Z) : list string :=
  (fun i => base +:+ "-" +:+ pretty i) <$>
    filter (fun i => i ∉ observed) (seqZ first (last - first + 1)).

End Scenario.

(** ** The categories of the high-priority patterns *)

(** The name [_extract_category] gives to each pattern of
    [high_priority_patterns]; the distance-learning pattern has no name of
    its own and falls to the last branch. *)
Definition named_categories : list (string * string) :=
  [ ("/ead(/.*)?$", "education");
    ("/conteudos(/.*)?$", "content");
    ("/educacao-a-distancia(/.*)?$", "high_priority");
    ("/servicos(/.*)?$", "services");
    ("/eventos(/.*)?$", "events");
    ("/pwa/produtos(/.*)?$", "products");
    ("/podcast(/.*)?$", "podcast");
    ("/receitas(/.*)?$", "recipes");
    ("/calculadoras(/.*)?$", "calculators");
    ("/acervo(/.*)?$", "archive") ].

(** ** Three threads *)

Definition three_calls : list Concurrent.call :=
  [ {| Concurrent.call_now := "1"; Concurrent.call_url := "https://www.example.com/a";
       Concurrent.call_category := "general"; Concurrent.call_phase := "phase2_recursive";
       Concurrent.call_depth := 2 |};
    {| Concurrent.call_now := "2"; Concurrent.call_url := "https://www.example.com/a";
       Concurrent.call_category := "general"; Concurrent.call_phase := "phase2_recursive";
       Concurrent.call_depth := 2 |};
    {| Concurrent.call_now := "3"; Concurrent.call_url := "https://www.example.com/a";
       Concurrent.call_category := "general"; Concurrent.call_phase := "phase3_interactive";
       Concurrent.call_depth := 0 |} ].

(** The threads take turns, one statement each; a thread that finds the
    lock taken loses its turn. *)
Definition round_robin : list nat :=
  concat (replicate 13 [0; 1; 2]%nat).

(** * Vocabulary of the properties *)

Module Facts.
Import UltraDeepMapsite.

(** The store knows the URL. *)
Definition known (s : t) (url : string) : Prop :=
  DiskStorage.is_url_already_discovered (storage s) url = true.

(** The URLs of the records on disk, in insertion order. *)
Definition urls_on_disk (s : t) : list string :=
  DiskStorage.entry_url <$> DiskStorage.discovered_urls (DiskStorage.mapsite_file (storage s)).

(** The URLs waiting in the queue, front first. *)
Definition waiting (s : t) : list string :=
  (fun entry : string * nat * string => entry.1.1) <$> crawl_queue s.

(** Nothing was put on or taken from the frontier. *)
Definition frontier_kept (s s' : t) : Prop :=
  crawl_queue s' = crawl_queue s ∧ queued_urls s' = queued_urls s ∧ popped s' = popped s.

(** What the store knew it still knows. *)
Definition store_grows (s s' : t) : Prop :=
  ∀ url, known s url → known s' url.

(** The mapsite file is the same. *)
Definition mapsite_kept (s s' : t) : Prop :=
  DiskStorage.mapsite_file (storage s') = DiskStorage.mapsite_file (storage s).

(** The records on disk, oldest first. *)
Definition records (s : t) : list DiskStorage.url_entry :=
  DiskStorage.discovered_urls (DiskStorage.mapsite_file (storage s)).

(** A record written for a link found on a page at [depth] during [phase]. *)
Definition link_record (phase : string) (depth : nat) (urls : list string)
    (e : DiskStorage.url_entry) : Prop :=
  DiskStorage.entry_phase e = phase ∧ DiskStorage.entry_depth e = (depth + 1)%nat ∧
  DiskStorage.entry_url e ∈ urls.

(** The classifier lets the URL through. *)
Definition accepted (env : Collaborators) (url : string) : Prop :=
  ∃ category priority,
    ContentClassifier.classify_url (urlparse env) (base_domain env) url =
      Ok (category, priority) ∧ (0 < priority)%nat.

End Facts.

Module Counting.

(** How many records carry the key [k]. *)
Definition occurrences (key : DiskStorage.url_entry → string) (k : string)
    (l : list DiskStorage.url_entry) : nat :=
  length (filter (fun e => key e = k) l).

(** [d.get(k)] *)
Fixpoint lookup (k : string) (d : list (string * nat)) : option nat :=
  match d with
  | [] => None
  | (k', n) :: rest => if String.eqb k' k then Some n else lookup k rest
  end.

(** The state a computation leaves satisfies [P] when the state it starts
    from does. *)
Definition keeps (P : UltraDeepMapsite.t → Prop) {A} (c : UltraDeepMapsite.M A) : Prop :=
  ∀ s, P s → P (UltraDeepMapsite.state_of (c s)).

Definition store_consistent (s : UltraDeepMapsite.t) : Prop :=
  DiskStorage.consistent (UltraDeepMapsite.storage s).

End Counting.


(** * Properties *)

(** ** Reading a pattern *)

Example compile_ead :
  Re.compile "/ead(/.*)?$" =
  Some (Re.Cat (Re.Lit "/") (Re.Cat (Re.Lit "e") (Re.Cat (Re.Lit "a") (Re.Cat (Re.Lit "d")
       (Re.Cat (Re.Opt (Re.Group (Re.Cat (Re.Lit "/") (Re.Star Re.AnyChar)))) Re.Eol))))).
Proof. reflexivity. Qed.

(** ** The store *)

Section Store.
Import DiskStorage.

Lemma known_iff (d : t) (url : string) :
  is_url_already_discovered d url = true ↔
  url ∈ entry_url <$> discovered_urls (mapsite_file d).
Proof.
  unfold is_url_already_discovered, existing_urls, _load_mapsite.
  rewrite bool_decide_eq_true. apply elem_of_list_to_set.
Qed.

Lemma unknown_iff (d : t) (url : string) :
  is_url_already_discovered d url = false ↔
  url ∉ entry_url <$> discovered_urls (mapsite_file d).
Proof.
  rewrite <- known_iff. destruct (is_url_already_discovered d url); naive_solver.
Qed.

Lemma add_new (now url category phase : string) (depth : nat) (d : t) :
  is_url_already_discovered d url = false →
  add_url_to_mapsite now url category phase depth d =
  (true,
   _save_mapsite_update
     {| discovered_urls :=
          discovered_urls (mapsite_file d) ++
          [ {| entry_url := url; entry_category := category; entry_phase := phase;
               entry_depth := depth; discovered_at := now |} ];
        total_count := S (length (discovered_urls (mapsite_file d)));
        last_updated := now |} d).
Proof.
  intros Hnew. unfold add_url_to_mapsite, is_url_already_discovered in *.
  apply bool_decide_eq_false in Hnew.
  rewrite bool_decide_eq_true_2 by exact Hnew.
  rewrite length_app. simpl. rewrite Nat.add_1_r. reflexivity.
Qed.

Lemma add_known (now url category phase : string) (depth : nat) (d : t) :
  is_url_already_discovered d url = true →
  add_url_to_mapsite now url category phase depth d = (false, d).
Proof.
  intros Hold. unfold add_url_to_mapsite, is_url_already_discovered in *.
  apply bool_decide_eq_true in Hold.
  rewrite bool_decide_eq_false_2; [reflexivity | tauto].
Qed.

(** After the call the URL is on disk, whatever was there before. *)
Lemma add_makes_known (now url category phase : string) (depth : nat) (d : t) :
  is_url_already_discovered (add_url_to_mapsite now url category phase depth d).2 url = true.
Proof.
  destruct (is_url_already_discovered d url) eqn:E.
  - rewrite add_known by exact E. exact E.
  - rewrite add_new by exact E. apply known_iff. simpl.
    rewrite fmap_app, elem_of_app. right. apply list_elem_of_singleton. reflexivity.
Qed.

(** The record list only grows. *)
Lemma add_keeps_known (now url category phase : string) (depth : nat) (d : t) (u : string) :
  is_url_already_discovered d u = true →
  is_url_already_discovered (add_url_to_mapsite now url category phase depth d).2 u = true.
Proof.
  intros Hu. destruct (is_url_already_discovered d url) eqn:E.
  - rewrite add_known by exact E. exact Hu.
  - rewrite add_new by exact E. apply known_iff. apply known_iff in Hu. simpl.
    rewrite fmap_app, elem_of_app. left. exact Hu.
Qed.

Lemma init_consistent (now : string) : consistent (init now None).
Proof. reflexivity. Qed.

Lemma add_consistent (now url category phase : string) (depth : nat) (d : t) :
  consistent d → consistent (add_url_to_mapsite now url category phase depth d).2.
Proof.
  intros Hc. destruct (is_url_already_discovered d url) eqn:E.
  - rewrite add_known by exact E. exact Hc.
  - rewrite add_new by exact E. unfold consistent. simpl.
    rewrite length_app. simpl. lia.
Qed.

Lemma records_for_unknown (d : t) (url : string) :
  is_url_already_discovered d url = false → records_for url d = [].
Proof.
  intros Hnew. apply unknown_iff in Hnew. unfold records_for.
  induction (discovered_urls (mapsite_file d)) as [|e l IH]; [reflexivity|].
  rewrite fmap_cons in Hnew. apply not_elem_of_cons in Hnew as [Hne Hl].
  rewrite filter_cons_False by (intros Heq; apply Hne; symmetry; exact Heq).
  apply IH, Hl.
Qed.

(** C4. Idempotent insert: adding a URL that is not yet on disk twice with
    the same category, phase and depth returns [true] and then [false],
    leaves exactly one record for the URL, and raises the total reported by
    [get_current_stats] by exactly one. *)
Theorem add_url_twice (now1 now2 url category phase : string) (depth : nat) (d : t) :
  consistent d →
  is_url_already_discovered d url = false →
  let first := add_url_to_mapsite now1 url category phase depth d in
  let second := add_url_to_mapsite now2 url category phase depth first.2 in
  first.1 = true ∧ second.1 = false ∧
  length (records_for url second.2) = 1 ∧
  total_urls (get_current_stats second.2) = S (total_urls (get_current_stats d)) ∧
  total_urls (get_current_stats second.2) = total_urls (get_current_stats first.2).
Proof.
  intros Hc Hnew first second.
  assert (Hknown : is_url_already_discovered first.2 url = true)
    by apply add_makes_known.
  subst second. rewrite (add_known now2) by exact Hknown.
  subst first. rewrite (add_new now1) by exact Hnew. simpl.
  repeat split.
  - unfold records_for. simpl. rewrite filter_app.
    fold (records_for url d). rewrite records_for_unknown by exact Hnew.
    simpl. rewrite filter_cons_True by reflexivity. reflexivity.
  - unfold get_current_stats, _load_mapsite. simpl. rewrite Hc. reflexivity.
Qed.

End Store.

(** ** The engine's operations, one by one *)

Section Engine_steps.
Import UltraDeepMapsite Facts.
Variable env : Collaborators.

Lemma frontier_kept_refl (s : t) : frontier_kept s s.
Proof. repeat split. Qed.

Lemma frontier_kept_trans (s1 s2 s3 : t) :
  frontier_kept s1 s2 → frontier_kept s2 s3 → frontier_kept s1 s3.
Proof. unfold frontier_kept. intros (?&?&?) (?&?&?). repeat split; congruence. Qed.

Lemma store_grows_refl (s : t) : store_grows s s.
Proof. intros u Hu. exact Hu. Qed.

Lemma store_grows_trans (s1 s2 s3 : t) :
  store_grows s1 s2 → store_grows s2 s3 → store_grows s1 s3.
Proof. intros H12 H23 u Hu. apply H23, H12, Hu. Qed.

Lemma mapsite_kept_grows (s s' : t) : mapsite_kept s s' → store_grows s s'.
Proof.
  unfold mapsite_kept, store_grows, known, DiskStorage.is_url_already_discovered,
    DiskStorage._load_mapsite.
  intros Heq u Hu. rewrite Heq. exact Hu.
Qed.

Lemma bind_returns {A B} (c : M A) (k : A → M B) (s s' : t) (a : A) :
  c s = Returns a s' → bind c k s = k a s'.
Proof. intros H. unfold bind. rewrite H. reflexivity. Qed.

Lemma bind_raises {A B} (c : M A) (k : A → M B) (s s' : t) :
  c s = Raises s' → bind c k s = Raises s'.
Proof. intros H. unfold bind. rewrite H. reflexivity. Qed.

Lemma now_eq (s : t) : now env s = Returns (strftime env (clock s)) (advance_clock s).
Proof. reflexivity. Qed.

Lemma add_url_eq (url category phase : string) (depth : nat) (s : t) :
  add_url_to_mapsite env url category phase depth s =
  let r := DiskStorage.add_url_to_mapsite (strftime env (clock s)) url category phase depth
             (storage s) in
  Returns r.1 (set_storage r.2 (advance_clock s)).
Proof.
  unfold add_url_to_mapsite, bind. simpl.
  destruct (DiskStorage.add_url_to_mapsite _ _ _ _ _ _). reflexivity.
Qed.

Lemma save_content_eq (url : string) (r : response) (phase : string) (depth : nat)
    (category : string) (s : t) :
  ∃ saved s', save_scraped_content env url r phase depth category s = Returns saved s' ∧
    frontier_kept s s' ∧ mapsite_kept s s' ∧
    requests s' = requests s ∧ failed_urls s' = failed_urls s.
Proof.
  unfold save_scraped_content, bind. simpl.
  unfold DiskStorage.save_scraped_content.
  destruct (DiskStorage._url_to_filename _ _ _); eexists _, _; (split; [reflexivity|]);
    repeat split.
Qed.

Lemma classify_eq (url : string) (s : t) :
  classify_url env url s =
  match ContentClassifier.classify_url (urlparse env) (base_domain env) url with
  | Ok x => Returns x s
  | Raised => Raises s
  end.
Proof. reflexivity. Qed.

(** The summary of what a computation may do to the engine when it only
    writes to the store. *)
Definition only_store (s s' : t) : Prop :=
  frontier_kept s s' ∧ store_grows s s' ∧
  requests s' = requests s ∧ failed_urls s' = failed_urls s.

Lemma only_store_refl (s : t) : only_store s s.
Proof. repeat split. apply store_grows_refl. Qed.

Lemma only_store_trans (s1 s2 s3 : t) :
  only_store s1 s2 → only_store s2 s3 → only_store s1 s3.
Proof.
  intros (F1&G1&R1&E1) (F2&G2&R2&E2). repeat split.
  1-3: destruct F1 as (?&?&?), F2 as (?&?&?); congruence.
  - eapply store_grows_trans; eassumption.
  - congruence.
  - congruence.
Qed.

Lemma add_url_only_store (url category phase : string) (depth : nat) (s : t) :
  ∃ added s', add_url_to_mapsite env url category phase depth s = Returns added s' ∧
    only_store s s' ∧ known s' url.
Proof.
  rewrite add_url_eq. eexists _, _. split; [reflexivity|]. split.
  - repeat split. intros u Hu. unfold known in *. simpl.
    apply add_keeps_known, Hu.
  - unfold known. simpl. apply add_makes_known.
Qed.

(** The link loop: what it returns is on disk when it returns, and it
    touches nothing but the store. *)
Lemma process_links_known (ls : list link) (phase : string) (depth : nat) :
  ∀ (processed_urls : list string) (s : t),
    Forall (known s) processed_urls →
    match process_links env ls phase depth processed_urls s with
    | Returns urls s' => Forall (known s') urls ∧ only_store s s'
    | Raises s' => only_store s s'
    end.
Proof.
  induction ls as [|l rest IH]; intros processed s Hp; simpl.
  - split; [exact Hp | apply only_store_refl].
  - destruct (String.eqb (link_text l) ""); [apply IH, Hp|].
    destruct (absolute env (link_text l)) as [url|]; [|apply IH, Hp].
    unfold bind at 1. rewrite classify_eq.
    destruct (ContentClassifier.classify_url _ _ url) as [[category priority]|];
      [|apply only_store_refl].
    destruct ((0 <? priority)%nat && bool_decide (url ∉ processed)); [|apply IH, Hp].
    destruct (add_url_only_store url category phase (depth + 1) s)
      as (added & s1 & Hadd & Hs1 & Hurl).
    rewrite (bind_returns _ _ _ _ _ Hadd).
    assert (Hp1 : Forall (known s1) (processed ++ [url])).
    { apply Forall_app. split.
      - eapply Forall_impl; [exact Hp|]. destruct Hs1 as (_&G&_). exact G.
      - constructor; [exact Hurl | constructor]. }
    specialize (IH (processed ++ [url]) s1 Hp1).
    destruct (process_links env rest phase depth (processed ++ [url]) s1).
    + destruct IH as [Hk Hs]. split; [exact Hk|]. eapply only_store_trans; eassumption.
    + eapply only_store_trans; eassumption.
Qed.

Lemma process_response_known (r : response) (source_url phase : string) (depth : nat)
    (category : string) (s : t) :
  match _process_complete_response env r source_url phase depth category s with
  | Returns urls s' => Forall (known s') urls ∧ only_store s s'
  | Raises s' => only_store s s'
  end.
Proof.
  unfold _process_complete_response.
  destruct (save_content_eq source_url r phase depth category s)
    as (saved & s1 & Hsave & F & K & R & E).
  rewrite (bind_returns _ _ _ _ _ Hsave).
  assert (Hs1 : only_store s s1).
  { repeat split; try apply F; try assumption. apply mapsite_kept_grows, K. }
  destruct (negb (has_links r)).
  - split; [constructor | exact Hs1].
  - pose proof (process_links_known (default [] (links r)) phase depth [] s1
                  (Forall_nil_2 _)) as H.
    destruct (process_links env _ phase depth [] s1).
    + destruct H as [Hk Hs]. split; [exact Hk|]. eapply only_store_trans; eassumption.
    + eapply only_store_trans; eassumption.
Qed.

Lemma filter_unknown_nil (s : t) (urls : list string) :
  Forall (known s) urls →
  filter (fun u => DiskStorage.is_url_already_discovered (storage s) u = false) urls = [].
Proof.
  induction 1 as [|u urls Hu _ IH]; [reflexivity|].
  rewrite filter_cons_False; [exact IH|].
  unfold known in Hu. rewrite Hu. discriminate.
Qed.

(** A crawl never has anything new to report. *)
Lemma crawl_returns_nothing (url : string) (depth : nat) (category phase : string) (s : t) :
  ∃ s', _crawl_single_url env url depth category phase s = Returns [] s' ∧
    frontier_kept s s' ∧ store_grows s s'.
Proof.
  unfold _crawl_single_url, try_except, bind, scrape.
  destruct (scrape_url env (requests s) url) as [r|].
  - pose proof (process_response_known r url phase depth category
                  (log_request (Scrape url) s)) as H.
    destruct (_process_complete_response env r url phase depth category _) as [urls s2|s2].
    + destruct H as (Hk & F & G & _). eexists. split.
      * rewrite filter_unknown_nil by exact Hk. reflexivity.
      * split; [exact F | exact G].
    + destruct H as (F & G & _). eexists. split; [reflexivity|].
      split; [exact F | intros u Hu; apply (G u Hu)].
  - eexists. split; [reflexivity|].
    split; [repeat split | apply mapsite_kept_grows; reflexivity].
Qed.

(** One turn of the recursive loop leaves the queue as it found it. *)
Lemma phase2_turn_quiet (entry : string * nat * string) (acc : list string) (s : t) :
  ∃ s', phase2_turn env entry acc s = Returns acc s' ∧
    crawl_queue s' = crawl_queue s ∧ popped s' = popped s ∧ store_grows s s'.
Proof.
  destruct entry as [[url depth] category]. unfold phase2_turn.
  unfold bind at 1. unfold is_url_already_discovered.
  destruct (DiskStorage.is_url_already_discovered (storage s) url).
  - eexists. split; [reflexivity|]. repeat split. apply store_grows_refl.
  - destruct (crawl_returns_nothing url depth category "phase2_recursive" s)
      as (s1 & Hcrawl & (Q & _ & P) & G).
    rewrite (bind_returns _ _ _ _ _ Hcrawl). simpl.
    eexists. split; [reflexivity|]. simpl. repeat split; assumption.
Qed.

(** A turn on a URL the store knows does nothing at all. *)
Lemma phase2_turn_skips (entry : string * nat * string) (acc : list string) (s : t) :
  known s entry.1.1 → phase2_turn env entry acc s = Returns acc s.
Proof.
  destruct entry as [[url depth] category]. simpl. intros Hk.
  unfold phase2_turn, bind, is_url_already_discovered. rewrite Hk. reflexivity.
Qed.

End Engine_steps.

(** ** The recursive loop *)

Section Recursive_loop.
Import UltraDeepMapsite Facts.
Variable env : Collaborators.

Lemma waiting_cons (s : t) (entry : string * nat * string) (rest : list (string * nat * string)) :
  crawl_queue s = entry :: rest → waiting s = entry.1.1 :: ((fun e : string * nat * string => e.1.1) <$> rest).
Proof. unfold waiting. intros ->. reflexivity. Qed.

(** With [fuel] turns allowed the loop takes the first [fuel] entries and
    enqueues nothing; it returns as soon as the queue is empty, and with the
    list it started from. *)
Lemma phase2_loop_takes (fuel : nat) :
  ∀ (acc : list string) (s : t),
    ∃ s', phase2_loop env fuel acc s =
            Returns (if (length (crawl_queue s) <=? fuel)%nat then Some acc else None) s' ∧
          crawl_queue s' = drop fuel (crawl_queue s) ∧
          popped s' = popped s ++ take fuel (waiting s) ∧
          store_grows s s'.
Proof.
  induction fuel as [|n IH]; intros acc s.
  - destruct s as [d q qs f dp rq pp c]. destruct q as [|entry rest]; simpl.
    + eexists. split; [reflexivity|]. simpl. rewrite app_nil_r.
      repeat split. apply store_grows_refl.
    + eexists. split; [reflexivity|]. simpl. rewrite app_nil_r.
      repeat split. apply store_grows_refl.
  - destruct (crawl_queue s) as [|entry rest] eqn:Hq.
    + exists s. simpl. rewrite Hq. simpl. unfold waiting. rewrite Hq. simpl.
      rewrite app_nil_r. repeat split. apply store_grows_refl.
    + simpl. rewrite Hq.
      destruct (phase2_turn_quiet env entry acc (log_popped entry.1.1 rest s))
        as (s1 & Hturn & Q1 & P1 & G1).
      rewrite (bind_returns _ _ _ _ _ Hturn).
      destruct (IH acc s1) as (s2 & Hloop & Q2 & P2 & G2).
      exists s2. simpl in Q1, P1. rewrite Q1 in Hloop, Q2.
      split; [exact Hloop|]. split; [exact Q2|]. split.
      * rewrite P2, P1. unfold waiting. rewrite Q1, Hq. simpl.
        rewrite <- app_assoc. reflexivity.
      * eapply store_grows_trans; [|exact G2].
        intros u Hu. apply G1. exact Hu.
Qed.


End Recursive_loop.

(** ** Seeding from an empty store *)

Section Foundation.
Import UltraDeepMapsite Facts.
Variable env : Collaborators.

Lemma known_on_disk (s : t) (url : string) : known s url ↔ url ∈ urls_on_disk s.
Proof. apply known_iff. Qed.

Lemma mapsite_kept_consistent (s s' : t) :
  mapsite_kept s s' → DiskStorage.consistent (storage s) → DiskStorage.consistent (storage s').
Proof. unfold mapsite_kept, DiskStorage.consistent. intros ->. tauto. Qed.


(** Every accepted URL goes to the back of the queue at depth 1. *)
Lemma seed_queue_all (urls : list string) :
  ∀ s : t,
    Forall (accepted env) urls →
    ∃ s' new, seed_queue env urls s = Returns tt s' ∧
          crawl_queue s' = crawl_queue s ++ new ∧
          (fun entry : string * nat * string => entry.1.1) <$> new = urls ∧
          Forall (fun entry : string * nat * string => entry.1.2 = 1%nat) new ∧
          storage s' = storage s ∧ requests s' = requests s ∧ popped s' = popped s.
Proof.
  induction urls as [|url rest IH]; intros s Ha.
  - exists s, []. simpl. rewrite app_nil_r. repeat split. constructor.
  - apply Forall_cons in Ha as [(category & priority & Hcl & Hpos) Hrest].
    simpl. unfold bind at 1. rewrite classify_eq, Hcl.
    apply Nat.ltb_lt in Hpos. rewrite Hpos.
    unfold bind at 1. simpl.
    destruct (IH (set_queue (crawl_queue s ++ [(url, 1%nat, category)])
                           ({[url]} ∪ queued_urls s) s) Hrest)
      as (s' & new & Hseed & Q & U & D & St & R & P).
    exists s', ((url, 1%nat, category) :: new). split; [exact Hseed|]. simpl in *.
    split; [rewrite Q, <- app_assoc; reflexivity|].
    split; [f_equal; exact U|].
    split; [constructor; [reflexivity | exact D]|].
    repeat split; assumption.
Qed.



End Foundation.

(** ** A site with nothing more to give *)

Section Quiet_site.
Import UltraDeepMapsite Facts.
Variable env : Collaborators.

(** After the first request no response carries links, and interaction
    surfaces no URL. *)
Hypothesis no_more_links :
  ∀ reqs url r, reqs ≠ [] → scrape_url env reqs url = Ok r → has_links r = false.
Hypothesis nothing_interactive :
  ∀ reqs url, extract_interactive_urls env reqs url = [].









End Quiet_site.

(** * The claims *)

Section Claims_engine.
Import UltraDeepMapsite Facts.

(** C2. Every URL in the list [_process_complete_response] returns is on
    disk when it returns; so the filter of [_crawl_single_url] leaves the
    empty list whatever the fetch does, and the recursive loop, for any
    bound on its turns, returns with an empty result list (or reaches the
    bound) having taken entries from the front of the queue and put none
    on it. *)
Theorem processed_links_already_stored (env : Collaborators) (s : t)
    (r : response) (source_url phase category : string) (depth fuel : nat) :
  match _process_complete_response env r source_url phase depth category s with
  | Returns urls s' => Forall (known s') urls
  | Raises _ => True
  end ∧
  (∃ s', _crawl_single_url env source_url depth category phase s = Returns [] s') ∧
  (∃ s', phase2_recursive_discovery env fuel s =
           Returns (if (length (crawl_queue s) <=? fuel)%nat then Some [] else None) s' ∧
         crawl_queue s' = drop fuel (crawl_queue s)).
Proof.
  split; [|split].
  - pose proof (process_response_known env r source_url phase depth category s) as H.
    destruct (_process_complete_response env r source_url phase depth category s);
      [exact (proj1 H) | exact I].
  - destruct (crawl_returns_nothing env source_url depth category phase s) as (s' & H & _).
    exists s'. exact H.
  - destruct (phase2_loop_takes env fuel [] s) as (s' & H & Q & _).
    exists s'. split; [exact H | exact Q].
Qed.


End Claims_engine.

Section Claims_scenarios.
Import UltraDeepMapsite Facts Scenario.


(** C1. The seeding scenario as the code runs it: of the links
    [/a, /b, http://other.com/c, tel:123] the first two are classified
    ("general", 1) and the external one ("external", 0), but the tel link
    is made relative to the base URL, classified ("general", 1) like any
    page, recorded and queued: three URLs are on the frontier at depth 1.
    The classifier itself answers ("invalid", 0) on [tel:123]. *)
Theorem seeding_queues_tel_link :
  let env := env_with seed_links in
  let classify := ContentClassifier.classify_url Url.urlparse (base_domain env) in
  let s1 := state_of (phase1_foundation_discovery env (init env None)) in
  absolute env "/a" = Some "https://www.example.com/a" ∧
  absolute env "tel:123" = Some "https://www.example.com/tel:123" ∧
  classify "https://www.example.com/a" = Ok ("general", 1%nat) ∧
  classify "https://www.example.com/b" = Ok ("general", 1%nat) ∧
  classify "http://other.com/c" = Ok ("external", 0%nat) ∧
  classify "https://www.example.com/tel:123" = Ok ("general", 1%nat) ∧
  classify "tel:123" = Ok ("invalid", 0%nat) ∧
  crawl_queue s1 =
    [ ("https://www.example.com/a", 1%nat, "general");
      ("https://www.example.com/b", 1%nat, "general");
      ("https://www.example.com/tel:123", 1%nat, "general") ] ∧
  urls_on_disk s1 =
    [ "https://www.example.com/a"; "https://www.example.com/b";
      "https://www.example.com/tel:123" ].
Proof. vm_compute. repeat split. Qed.

(** C5. What the foundation phase does with a URL the store already holds:
    with [/a] on disk from an earlier run and [/a] among the links of the
    seed page, the URL is put on the frontier; on an empty disk it is
    recorded first and queued afterwards.  The recursive phase then takes
    it from the queue and skips it without a fetch. *)
Theorem foundation_queues_stored_url :
  let env := env_with ["/a"] in
  let url := "https://www.example.com/a" in
  let s0 := init env (Some (disk_with url)) in
  let s1 := state_of (phase1_foundation_discovery env s0) in
  let fresh := state_of (phase1_foundation_discovery env (init env None)) in
  DiskStorage.is_url_already_discovered (storage s0) url = true ∧
  crawl_queue s0 = [] ∧
  crawl_queue s1 = [(url, 1%nat, "general")] ∧
  crawl_queue fresh = [(url, 1%nat, "general")] ∧
  DiskStorage.is_url_already_discovered (storage fresh) url = true ∧
  requests (state_of (phase2_recursive_discovery env 1 s1)) = requests s1 ∧
  popped (state_of (phase2_recursive_discovery env 1 s1)) = [url].
Proof. vm_compute. repeat split. Qed.

(** C3 as the claim states it fails: the candidates do not reach 64 and the
    key is not [/ead/curso/item-{id}]. *)
Lemma item_candidates_stop_at_59 :
  (proposals item_urls ≠
     [("/ead/curso/item-{id}", candidates "/ead/curso/item" 1 64 [10; 12; 15]%Z)]) ∧
  (proposals item_urls).*1 = ["/ead/category/item-{id}"] ∧
  "/ead/curso/item-59" ∈ concat (proposals item_urls).*2 ∧
  ("/ead/curso/item-60" ∉ concat (proposals item_urls).*2) ∧
  "/ead/curso/item-64" ∉ concat (proposals item_urls).*2.
Proof.
  split; [vm_compute; discriminate|]. split; [vm_compute; reflexivity|].
  split; [refine (proj1 (bool_decide_eq_true _) _); vm_compute; reflexivity|].
  split; refine (proj1 (bool_decide_eq_false _) _); vm_compute; reflexivity.
Qed.

(** C3, amended. For the inputs [/ead/curso/item-10], [-12], [-15] the
    analyzer files the URLs under the key [/ead/category/item-{id}] and
    proposes the candidates [/ead/curso/item-i] for [i] from
    1 (= max(1, 10-10)) through 59 (= 10+50-1), leaving out 10, 12 and 15. *)
Theorem item_candidates :
  URLPatternAnalyzer.analyze_patterns Url.urlparse item_urls [] =
  Ok ([("/ead/category/item-{id}", candidates "/ead/curso/item" 1 59 [10; 12; 15]%Z)],
      [("/ead/category/item-{id}", item_urls)]) ∧
  length (candidates "/ead/curso/item" 1 59 [10; 12; 15]%Z) = 56%nat.
Proof. split; vm_compute; reflexivity. Qed.

(** C6. Three URLs of the recognised shape [/node/{id}]: the identifiers
    are looked for behind a dash, none is found, and no candidate is
    emitted, where the range [max(1, 1-10), 1+50) without 1, 2, 3 would give
    47 of them. *)
Theorem node_shape_yields_nothing :
  Forall (fun url => URLPatternAnalyzer._extract_pattern Url.urlparse url =
                     Ok (Some "/node/{id}")) node_urls ∧
  URLPatternAnalyzer.extract_ids node_urls = [] ∧
  URLPatternAnalyzer.analyze_patterns Url.urlparse node_urls [] =
    Ok ([], [("/node/{id}", node_urls)]) ∧
  length (filter (fun i => i ∉ [1; 2; 3]%Z)
            (URLPatternAnalyzer.range (Z.max 1 (1 - 10)) (1 + 50))) = 47%nat.
Proof.
  split; [repeat constructor|]. split; [reflexivity|]. split; vm_compute; reflexivity.
Qed.

End Claims_scenarios.

Section Claims_classifier.
Import ContentClassifier.

Lemma named_categories_cover :
  named_categories.*1 = high_priority_patterns ∧
  Forall (fun '(pattern, category) => ∀ url, _extract_category pattern url = category)
         named_categories.
Proof. split; [reflexivity|]. repeat constructor. Qed.

(** C7 as the claim states it fails: a URL that is not absolute matches the
    education pattern and neither an exclude nor a download pattern, and is
    classified ("invalid", 0); the distance-learning pattern gives
    "high_priority", which is none of the nine names; and a URL that matches
    two patterns takes the name of the one listed first. *)
Lemma high_priority_match_not_enough :
  let classify := classify_url Url.urlparse "www.example.com" in
  (matches_any exclude_patterns "/ead" = false ∧
   matches_any file_download_patterns "/ead" = false ∧
   first_match high_priority_patterns "/ead" = Some "/ead(/.*)?$" ∧
   classify "/ead" = Ok ("invalid", 0%nat)) ∧
  (matches_any exclude_patterns "https://www.example.com/educacao-a-distancia" = false ∧
   matches_any file_download_patterns "https://www.example.com/educacao-a-distancia" = false ∧
   first_match high_priority_patterns "https://www.example.com/educacao-a-distancia" =
     Some "/educacao-a-distancia(/.*)?$" ∧
   classify "https://www.example.com/educacao-a-distancia" = Ok ("high_priority", 1%nat)) ∧
  (Re.search true "/conteudos(/.*)?$" "https://www.example.com/conteudos/ead" = true ∧
   classify "https://www.example.com/conteudos/ead" = Ok ("education", 1%nat)).
Proof. vm_compute. repeat split. Qed.

(** C7, amended. For every URL that starts with [http], whose host contains
    the base domain, and that matches no exclude pattern and no
    file-download pattern, when [pattern] is the first high-priority pattern
    the URL matches, [classify_url] returns at priority 1 the category that
    [_extract_category] gives that pattern: education, content, services,
    events, products, podcast, recipes, calculators or archive, and
    high_priority for the distance-learning pattern. *)
Theorem classify_high_priority (urlparse : string → option url_parts)
    (base_domain url pattern : string) (parsed : url_parts) :
  Str.startswith url "http" = true →
  urlparse url = Some parsed →
  Str.contains base_domain (netloc parsed) = true →
  matches_any exclude_patterns url = false →
  matches_any file_download_patterns url = false →
  first_match high_priority_patterns url = Some pattern →
  ∃ category,
    (pattern, category) ∈ named_categories ∧
    classify_url urlparse base_domain url = Ok (category, 1%nat).
Proof.
  intros Hhttp Hparse Hdomain Hexcl Hfile Hfirst.
  assert (Hne : String.eqb url "" = false).
  { destruct url; [discriminate Hhttp | reflexivity]. }
  unfold classify_url.
  rewrite Hne, Hhttp, Hparse, Hdomain, Hexcl, Hfile, Hfirst. simpl.
  apply find_some in Hfirst as [Hin _].
  exists (_extract_category pattern url). split; [|reflexivity].
  unfold high_priority_patterns in Hin. simpl in Hin.
  repeat (destruct Hin as [<- | Hin];
          [refine (proj1 (bool_decide_eq_true _) _); vm_compute; reflexivity|]).
  destruct Hin.
Qed.

Lemma classify_high_priority_witness :
  ∃ category,
    ("/ead(/.*)?$", category) ∈ named_categories ∧
    classify_url Url.urlparse "www.example.com" "https://www.example.com/ead/curso" =
      Ok (category, 1%nat).
Proof.
  apply (classify_high_priority Url.urlparse "www.example.com"
           "https://www.example.com/ead/curso" "/ead(/.*)?$"
           {| netloc := "www.example.com"; path := "/ead/curso" |});
    vm_compute; reflexivity.
Defined.

End Claims_classifier.

Section Store_witness.
Import DiskStorage.

Lemma add_url_twice_witness :
  let d := init "0" None in
  let first := add_url_to_mapsite "1" "https://www.example.com/a" "general"
                 "phase1_foundation" 1 d in
  let second := add_url_to_mapsite "2" "https://www.example.com/a" "general"
                  "phase1_foundation" 1 first.2 in
  first.1 = true ∧ second.1 = false ∧
  length (records_for "https://www.example.com/a" second.2) = 1%nat ∧
  total_urls (get_current_stats second.2) = S (total_urls (get_current_stats d)) ∧
  total_urls (get_current_stats second.2) = total_urls (get_current_stats first.2).
Proof.
  apply (add_url_twice "1" "2" "https://www.example.com/a" "general"
           "phase1_foundation" 1 (init "0" None)).
  - reflexivity.
  - vm_compute. reflexivity.
Defined.

End Store_witness.

(** ** Counting and sorting *)

Section Counts.
Import Counting.

Lemma lookup_bump (k key : string) (d : list (string * nat)) :
  lookup k (Dict.bump key d) =
  if String.eqb key k then Some (S (default 0%nat (lookup key d))) else lookup k d.
Proof.
  induction d as [|[k' n] rest IH]; simpl.
  - destruct (String.eqb key k); reflexivity.
  - destruct (String.eqb k' key) eqn:E; simpl.
    + apply String.eqb_eq in E as ->. destruct (String.eqb key k); reflexivity.
    + rewrite IH. destruct (String.eqb key k) eqn:E'; [|reflexivity].
      apply String.eqb_eq in E' as <-. rewrite E. reflexivity.
Qed.

Lemma keys_bump (key : string) (d : list (string * nat)) :
  NoDup d.*1 → NoDup (Dict.bump key d).*1 ∧
  ∀ k, k ∈ (Dict.bump key d).*1 ↔ k = key ∨ k ∈ d.*1.
Proof.
  induction d as [|[k' n] rest IH]; simpl; intros Hnd.
  - split; [repeat constructor; apply not_elem_of_nil|].
    intros k. rewrite list_elem_of_singleton. rewrite elem_of_nil. tauto.
  - apply NoDup_cons in Hnd as [Hk' Hrest]. destruct (IH Hrest) as [IH1 IH2].
    destruct (String.eqb k' key) eqn:E; simpl.
    + apply String.eqb_eq in E as ->. split; [constructor; assumption|].
      intros k. rewrite elem_of_cons. tauto.
    + split.
      * constructor; [|exact IH1].
        rewrite IH2. intros [-> | Hin]; [|tauto].
        rewrite String.eqb_refl in E. discriminate.
      * intros k. rewrite !elem_of_cons, IH2. tauto.
Qed.

Lemma lookup_elem (k : string) (n : nat) (d : list (string * nat)) :
  NoDup d.*1 → (k, n) ∈ d ↔ lookup k d = Some n.
Proof.
  induction d as [|[k' m] rest IH]; simpl; intros Hnd.
  - split; [intros H; inversion H | discriminate].
  - apply NoDup_cons in Hnd as [Hk' Hrest]. specialize (IH Hrest).
    rewrite elem_of_cons. destruct (String.eqb k' k) eqn:E.
    + apply String.eqb_eq in E as ->. split.
      * intros [Heq | Hin]; [congruence|].
        exfalso. apply Hk'. apply (list_elem_of_fmap_2 fst) in Hin. exact Hin.
      * intros [= ->]. left. reflexivity.
    + rewrite <- IH. split; [|tauto].
      intros [[= <- <-] | Hin]; [|exact Hin]. rewrite String.eqb_refl in E. discriminate.
Qed.

Lemma occurrences_snoc (key : DiskStorage.url_entry → string) (k : string)
    (l : list DiskStorage.url_entry) (e : DiskStorage.url_entry) :
  occurrences key k (l ++ [e]) =
  (occurrences key k l + if String.eqb (key e) k then 1 else 0)%nat.
Proof.
  unfold occurrences. rewrite filter_app, length_app. f_equal.
  destruct (String.eqb (key e) k) eqn:E.
  - apply String.eqb_eq in E. rewrite filter_cons_True by exact E. reflexivity.
  - apply String.eqb_neq in E. rewrite filter_cons_False by exact E. reflexivity.
Qed.

(** [count_by] holds, for each key that occurs, the number of records that
    carry it, and no other key. *)
Lemma count_by_lookup (key : DiskStorage.url_entry → string) (l : list DiskStorage.url_entry) :
  NoDup (DiskStorage.count_by key l).*1 ∧
  ∀ k, lookup k (DiskStorage.count_by key l) =
       if (occurrences key k l =? 0)%nat then None else Some (occurrences key k l).
Proof.
  unfold DiskStorage.count_by.
  induction l as [|e l IH] using rev_ind.
  - split; [constructor | reflexivity].
  - destruct IH as [IHnd IHl]. rewrite fold_left_app. simpl. split.
    + apply keys_bump, IHnd.
    + intros k. rewrite lookup_bump, occurrences_snoc.
      destruct (String.eqb (key e) k) eqn:E.
      * apply String.eqb_eq in E as <-. rewrite IHl.
        destruct (occurrences key (key e) l) as [|m]; simpl.
        -- reflexivity.
        -- rewrite Nat.add_1_r. reflexivity.
      * rewrite IHl, Nat.add_0_r. reflexivity.
Qed.

Lemma count_by_elem (key : DiskStorage.url_entry → string) (l : list DiskStorage.url_entry)
    (k : string) (n : nat) :
  (k, n) ∈ DiskStorage.count_by key l ↔ (0 < n)%nat ∧ n = occurrences key k l.
Proof.
  destruct (count_by_lookup key l) as [Hnd Hl].
  rewrite (lookup_elem _ _ _ Hnd), Hl.
  destruct (occurrences key k l) as [|m]; simpl.
  - split; [discriminate | lia].
  - split; [intros [= <-]; split; [lia | reflexivity] | intros [_ ->]; reflexivity].
Qed.

Lemma insert_desc_perm (item : string * nat) (l : list (string * nat)) :
  Dict.insert_desc item l ≡ₚ item :: l.
Proof.
  induction l as [|x rest IH]; simpl; [reflexivity|].
  destruct (snd item <=? snd x)%nat; [|reflexivity].
  rewrite IH. apply Permutation_swap.
Qed.

Lemma sorted_desc_perm (d : list (string * nat)) : Dict.sorted_desc d ≡ₚ d.
Proof.
  unfold Dict.sorted_desc.
  assert (H : ∀ acc, fold_left (fun acc item => Dict.insert_desc item acc) d acc ≡ₚ d ++ acc).
  { induction d as [|x rest IH]; intros acc; simpl; [reflexivity|].
    rewrite IH, insert_desc_perm. symmetry. apply Permutation_middle. }
  rewrite H, app_nil_r. reflexivity.
Qed.

(** The order [sorted] gives: counts never go up. *)
Lemma insert_desc_sorted (item : string * nat) (l : list (string * nat)) :
  Sorted (fun a b => snd b ≤ snd a)%nat l →
  Sorted (fun a b => snd b ≤ snd a)%nat (Dict.insert_desc item l).
Proof.
  induction 1 as [|x rest Hs IH Hhd]; simpl.
  - repeat constructor.
  - destruct (snd item <=? snd x)%nat eqn:E.
    + constructor; [exact IH|].
      apply Nat.leb_le in E. destruct rest as [|y rest']; simpl.
      * constructor. exact E.
      * destruct (snd item <=? snd y)%nat; constructor; [|exact E].
        inversion Hhd; assumption.
    + apply Nat.leb_gt in E. constructor; [constructor; assumption|].
      constructor. lia.
Qed.

Lemma sorted_desc_sorted (d : list (string * nat)) :
  Sorted (fun a b => snd b ≤ snd a)%nat (Dict.sorted_desc d).
Proof.
  unfold Dict.sorted_desc.
  assert (H : ∀ acc, Sorted (fun a b => snd b ≤ snd a)%nat acc →
              Sorted (fun a b => snd b ≤ snd a)%nat
                (fold_left (fun acc item => Dict.insert_desc item acc) d acc)).
  { induction d as [|x rest IH]; intros acc Hacc; simpl; [exact Hacc|].
    apply IH, insert_desc_sorted, Hacc. }
  apply H. constructor.
Qed.

End Counts.

(** ** The record count stays right through a run *)

Section Consistency.
Import UltraDeepMapsite Facts Counting.
Variable env : Collaborators.

Lemma keeps_ret (P : t → Prop) {A} (a : A) : keeps P (ret a).
Proof. intros s Hs. exact Hs. Qed.

Lemma keeps_lift (P : t → Prop) {A} (r : result A) : keeps P (lift r).
Proof. intros s Hs. unfold lift. destruct r; exact Hs. Qed.

Lemma keeps_bind (P : t → Prop) {A B} (c : M A) (k : A → M B) :
  keeps P c → (∀ a, keeps P (k a)) → keeps P (bind c k).
Proof.
  intros Hc Hk s Hs. unfold bind. specialize (Hc s Hs).
  destruct (c s) as [a s'|s']; [apply Hk, Hc | exact Hc].
Qed.

Lemma keeps_try (P : t → Prop) {A} (c handler : M A) :
  keeps P c → keeps P handler → keeps P (try_except c handler).
Proof.
  intros Hc Hh s Hs. unfold try_except. specialize (Hc s Hs).
  destruct (c s) as [a s'|s']; [exact Hc | apply Hh, Hc].
Qed.

Lemma keeps_if (P : t → Prop) {A} (b : bool) (c1 c2 : M A) :
  keeps P c1 → keeps P c2 → keeps P (if b then c1 else c2).
Proof. destruct b; tauto. Qed.

Lemma keeps_now : keeps store_consistent (now env).
Proof. intros s Hs. exact Hs. Qed.

Lemma keeps_classify (url : string) : keeps store_consistent (classify_url env url).
Proof. apply keeps_lift. Qed.

Lemma keeps_add (url category phase : string) (depth : nat) :
  keeps store_consistent (add_url_to_mapsite env url category phase depth).
Proof.
  intros s Hs. rewrite add_url_eq. simpl. unfold store_consistent. simpl.
  apply add_consistent, Hs.
Qed.

Lemma keeps_save (url : string) (r : response) (phase : string) (depth : nat)
    (category : string) :
  keeps store_consistent (save_scraped_content env url r phase depth category).
Proof.
  intros s Hs.
  destruct (save_content_eq env url r phase depth category s) as (b & s' & H & _ & K & _).
  rewrite H. simpl. eapply mapsite_kept_consistent; eassumption.
Qed.

Lemma keeps_scrape (url : string) : keeps store_consistent (scrape env url).
Proof. intros s Hs. unfold scrape. destruct (scrape_url env (requests s) url); exact Hs. Qed.

Lemma keeps_process_links (ls : list link) (phase : string) (depth : nat) :
  ∀ processed, keeps store_consistent (process_links env ls phase depth processed).
Proof.
  induction ls as [|l rest IH]; intros processed; simpl; [apply keeps_ret|].
  destruct (String.eqb (link_text l) ""); [apply IH|].
  destruct (absolute env (link_text l)) as [url|]; [|apply IH].
  apply keeps_bind; [apply keeps_classify|]. intros [category priority].
  apply keeps_if; [|apply IH].
  apply keeps_bind; [apply keeps_add | intros _; apply IH].
Qed.

Lemma keeps_process_response (r : response) (source_url phase : string) (depth : nat)
    (category : string) :
  keeps store_consistent (_process_complete_response env r source_url phase depth category).
Proof.
  unfold _process_complete_response.
  apply keeps_bind; [apply keeps_save|]. intros _.
  apply keeps_if; [apply keeps_ret | apply keeps_process_links].
Qed.

Lemma keeps_crawl (url : string) (depth : nat) (category phase : string) :
  keeps store_consistent (_crawl_single_url env url depth category phase).
Proof.
  unfold _crawl_single_url. apply keeps_try.
  - apply keeps_bind; [apply keeps_scrape|]. intros r.
    apply keeps_bind; [apply keeps_process_response|]. intros urls s Hs. exact Hs.
  - intros s Hs. exact Hs.
Qed.

Lemma keeps_enqueue (url : string) (depth : nat) (category : string) :
  keeps store_consistent (enqueue url depth category).
Proof. intros s Hs. exact Hs. Qed.

Lemma keeps_seed_queue (urls : list string) : keeps store_consistent (seed_queue env urls).
Proof.
  induction urls as [|url rest IH]; simpl; [apply keeps_ret|].
  apply keeps_bind; [apply keeps_classify|]. intros [category priority].
  apply keeps_bind; [|intros _; exact IH].
  apply keeps_if; [apply keeps_enqueue | apply keeps_ret].
Qed.

Lemma keeps_phase1 : keeps store_consistent (phase1_foundation_discovery env).
Proof.
  unfold phase1_foundation_discovery. apply keeps_try; [|apply keeps_ret].
  apply keeps_bind; [apply keeps_scrape|]. intros r.
  apply keeps_if; [apply keeps_ret|].
  apply keeps_bind; [apply keeps_process_response|]. intros urls.
  apply keeps_bind; [apply keeps_seed_queue | intros _; apply keeps_ret].
Qed.

Lemma keeps_enqueue_new (new_urls : list string) (depth : nat) :
  keeps store_consistent (enqueue_new env new_urls depth).
Proof.
  induction new_urls as [|u rest IH]; simpl; [apply keeps_ret|].
  apply keeps_bind; [intros s Hs; exact Hs|]. intros known.
  apply keeps_bind; [|intros _; exact IH].
  intros s Hs.
  destruct (negb known && bool_decide (u ∉ queued_urls s)); [|exact Hs].
  revert s Hs. apply keeps_bind; [apply keeps_classify|]. intros [category priority].
  apply keeps_if; [apply keeps_enqueue | apply keeps_ret].
Qed.

Lemma keeps_phase2_turn (entry : string * nat * string) (acc : list string) :
  keeps store_consistent (phase2_turn env entry acc).
Proof.
  destruct entry as [[url depth] category]. unfold phase2_turn.
  apply keeps_bind; [intros s Hs; exact Hs|]. intros known.
  apply keeps_if; [apply keeps_ret|].
  apply keeps_bind; [apply keeps_crawl|]. intros new_urls.
  apply keeps_bind.
  - destruct new_urls; [apply keeps_ret | apply keeps_enqueue_new].
  - intros _. apply keeps_bind; [intros s Hs; exact Hs | intros _; apply keeps_ret].
Qed.

Lemma keeps_phase2 (fuel : nat) :
  ∀ acc, keeps store_consistent (phase2_loop env fuel acc).
Proof.
  induction fuel as [|n IH]; intros acc s Hs; simpl.
  - destruct (crawl_queue s); exact Hs.
  - destruct (crawl_queue s) as [|entry rest]; [exact Hs|].
    apply (keeps_bind store_consistent (phase2_turn env entry acc)
             (fun acc' => phase2_loop env n acc')).
    + apply keeps_phase2_turn.
    + exact IH.
    + exact Hs.
Qed.

Lemma keeps_merge_interactive (interactive_urls : list string) :
  ∀ new_urls, keeps store_consistent (merge_interactive env interactive_urls new_urls).
Proof.
  induction interactive_urls as [|u rest IH]; intros new_urls; simpl; [apply keeps_ret|].
  intros s Hs.
  destruct (bool_decide (u ∉ DiskStorage.existing_urls (DiskStorage._load_mapsite (storage s))));
    [|apply IH, Hs].
  revert s Hs. apply keeps_bind; [apply keeps_classify|]. intros [category priority].
  apply keeps_if; [|apply IH].
  apply keeps_bind; [apply keeps_add | intros _; apply IH].
Qed.

Lemma keeps_interactive_loop (targets : list (string * string)) :
  ∀ acc, keeps store_consistent (interactive_loop env targets acc).
Proof.
  induction targets as [|[url category] rest IH]; intros acc; simpl; [apply keeps_ret|].
  apply keeps_bind; [|exact IH].
  apply keeps_try; [|apply keeps_ret].
  apply keeps_bind; [intros s Hs; exact Hs|]. intros urls.
  apply keeps_bind; [apply keeps_merge_interactive | intros v; apply keeps_ret].
Qed.

Lemma keeps_phase3 : keeps store_consistent (phase3_interactive_discovery env).
Proof. intros s Hs. apply keeps_interactive_loop, Hs. Qed.

Lemma keeps_test_suggestions (suggestions : list string) :
  ∀ valid, keeps store_consistent (test_suggestions env suggestions valid).
Proof.
  induction suggestions as [|u rest IH]; intros valid; simpl; [apply keeps_ret|].
  apply keeps_bind; [|exact IH].
  apply keeps_try; [|apply keeps_ret].
  apply keeps_bind; [apply keeps_scrape|]. intros r.
  apply keeps_if; [|apply keeps_ret].
  apply keeps_bind; [|intros _; apply keeps_ret].
  apply keeps_try; [|apply keeps_ret].
  apply keeps_bind; [apply keeps_classify|]. intros classified.
  apply keeps_bind; [apply keeps_process_response | intros _; apply keeps_ret].
Qed.

Lemma keeps_test_patterns (patterns : list (string * list string)) :
  ∀ acc, keeps store_consistent (test_patterns env patterns acc).
Proof.
  induction patterns as [|[pattern suggestions] rest IH]; intros acc; simpl;
    [apply keeps_ret|].
  apply keeps_bind; [apply keeps_test_suggestions | intros v; apply IH].
Qed.

Lemma keeps_phase4 : keeps store_consistent (phase4_pattern_completion env).
Proof.
  intros s Hs. unfold phase4_pattern_completion.
  destruct (URLPatternAnalyzer.analyze_patterns _ _ _) as [[patterns groups]|]; [|exact Hs].
  destruct patterns as [|p ps]; [exact Hs|].
  apply keeps_test_patterns. exact Hs.
Qed.

Lemma keeps_summary : keeps store_consistent (save_ultra_comprehensive_results env).
Proof. intros s Hs. exact Hs. Qed.

Lemma keeps_run (fuel : nat) : keeps store_consistent (run_ultra_deep_discovery env fuel).
Proof.
  unfold run_ultra_deep_discovery.
  apply keeps_if; [apply keeps_ret|].
  apply keeps_try; [|apply keeps_ret].
  apply keeps_bind; [apply keeps_phase1|]. intros urls.
  destruct urls as [|u us]; [apply keeps_ret|].
  apply keeps_bind; [apply keeps_phase2|]. intros [acc|]; [|apply keeps_ret].
  apply keeps_bind; [apply keeps_phase3|]. intros _.
  apply keeps_bind; [apply keeps_phase4|]. intros _.
  apply keeps_bind; [apply keeps_summary | intros report; apply keeps_ret].
Qed.

(** A completed run printed the summary of the state it ended in. *)
Lemma run_completed (fuel : nat) (s0 s' : t) (lines : list line) (total : nat) :
  run_ultra_deep_discovery env fuel s0 = Returns (Completed lines total) s' →
  save_ultra_comprehensive_results env s' = Returns (lines, total) s'.
Proof.
  unfold run_ultra_deep_discovery.
  destruct (initialize_session env); simpl; [|discriminate].
  unfold try_except, bind.
  destruct (phase1_foundation_discovery env s0) as [urls s1|s1]; [|discriminate].
  destruct urls as [|u us]; [discriminate|].
  destruct (phase2_recursive_discovery env fuel s1) as [[acc|] s2|s2]; try discriminate.
  destruct (phase3_interactive_discovery env s2) as [urls3 s3|s3]; [|discriminate].
  destruct (phase4_pattern_completion env s3) as [urls4 s4|s4]; [|discriminate].
  unfold save_ultra_comprehensive_results, ret. simpl.
  intros [= <- <- <-]. reflexivity.
Qed.

End Consistency.

Section Claims_summary.
Import UltraDeepMapsite Facts Counting Scenario.

Lemma summary_eq (env : Collaborators) (s : t) :
  save_ultra_comprehensive_results env s =
  Returns
    ([BaseUrl (base_url env);
      TotalUrlsDiscovered (DiskStorage.total_count (DiskStorage.mapsite_file (storage s)))] ++
     ((fun '(category, count) => CategoryCount category count) <$>
        Dict.sorted_desc (DiskStorage.count_by DiskStorage.entry_category
          (DiskStorage.discovered_urls (DiskStorage.mapsite_file (storage s))))) ++
     ((fun '(phase, count) => PhaseCount phase count) <$>
        Dict.sorted_desc (DiskStorage.count_by DiskStorage.entry_phase
          (DiskStorage.discovered_urls (DiskStorage.mapsite_file (storage s))))) ++
     [LastUpdated (DiskStorage.last_updated (DiskStorage.mapsite_file (storage s)))],
     DiskStorage.total_count (DiskStorage.mapsite_file (storage s))) s.
Proof. reflexivity. Qed.

Lemma category_line (env : Collaborators) (s : t) (lines : list line) (total : nat)
    (c : string) (n : nat) :
  save_ultra_comprehensive_results env s = Returns (lines, total) s →
  CategoryCount c n ∈ lines ↔
  (c, n) ∈ DiskStorage.count_by DiskStorage.entry_category
             (DiskStorage.discovered_urls (DiskStorage.mapsite_file (storage s))).
Proof.
  rewrite summary_eq. intros [= <- _].
  rewrite !elem_of_cons, !elem_of_app, !list_elem_of_fmap, elem_of_cons, elem_of_nil.
  rewrite <- (elem_of_Permutation_proper _ _ _ (sorted_desc_perm _)).
  split.
  - intros [H | [H | [([c' n'] & Heq & Hin) | [([c' n'] & Heq & Hin) | [H | H]]]]];
      try discriminate; try tauto.
    injection Heq as -> ->. exact Hin.
  - intros Hin. right. right. left. exists (c, n). split; [reflexivity | exact Hin].
Qed.

Lemma phase_line (env : Collaborators) (s : t) (lines : list line) (total : nat)
    (p : string) (n : nat) :
  save_ultra_comprehensive_results env s = Returns (lines, total) s →
  PhaseCount p n ∈ lines ↔
  (p, n) ∈ DiskStorage.count_by DiskStorage.entry_phase
             (DiskStorage.discovered_urls (DiskStorage.mapsite_file (storage s))).
Proof.
  rewrite summary_eq. intros [= <- _].
  rewrite !elem_of_cons, !elem_of_app, !list_elem_of_fmap, elem_of_cons, elem_of_nil.
  rewrite <- (elem_of_Permutation_proper _ _ _ (sorted_desc_perm _)).
  split.
  - intros [H | [H | [([c' n'] & Heq & Hin) | [([c' n'] & Heq & Hin) | [H | H]]]]];
      try discriminate; try tauto.
    injection Heq as -> ->. exact Hin.
  - intros Hin. right. right. right. left. exists (p, n). split; [reflexivity | exact Hin].
Qed.

(** C9 as the claim states it fails: when the fetch of the seed page fails
    the run ends without a summary, and the summary does not tell a run with
    failed URLs from one without. *)
Lemma summary_omits_failures :
  let env := env_with ["/a"; "/b"] in
  let s := state_of (run_ultra_deep_discovery env 2 (init env None)) in
  let failed : gset string := {["https://www.example.com/b"]} in
  value_of (run_ultra_deep_discovery env_down 2 (init env_down None)) = Some Aborted ∧
  size (failed_urls (set_failed failed s)) = 1%nat ∧
  size (failed_urls s) = 0%nat ∧
  value_of (save_ultra_comprehensive_results env (set_failed failed s)) =
  value_of (save_ultra_comprehensive_results env s).
Proof. vm_compute. repeat split. Qed.

(** C9, amended. When a run that starts from a consistent store reaches its
    final summary, the summary reports the number of records on disk and,
    for each category and each phase that occurs, the number of records
    carrying it, whether or not fetches failed during the run; it reports
    nothing about failed URLs: the same lines are printed whatever the set
    of failed URLs. *)
Theorem summary_reports_store (env : Collaborators) (fuel : nat) (s0 s' : t)
    (lines : list line) (total : nat) (failed : gset string) :
  store_consistent s0 →
  run_ultra_deep_discovery env fuel s0 = Returns (Completed lines total) s' →
  let records := DiskStorage.discovered_urls (DiskStorage.mapsite_file (storage s')) in
  total = length records ∧
  TotalUrlsDiscovered total ∈ lines ∧
  (∀ c n, CategoryCount c n ∈ lines ↔
          (0 < n)%nat ∧ n = occurrences DiskStorage.entry_category c records) ∧
  (∀ p n, PhaseCount p n ∈ lines ↔
          (0 < n)%nat ∧ n = occurrences DiskStorage.entry_phase p records) ∧
  value_of (save_ultra_comprehensive_results env (set_failed failed s')) =
    Some (lines, total).
Proof.
  intros Hc Hrun records.
  pose proof (keeps_run env fuel s0 Hc) as Hc'. rewrite Hrun in Hc'. simpl in Hc'.
  pose proof (run_completed env fuel s0 s' lines total Hrun) as Hsum.
  split; [|split; [|split; [|split]]].
  - rewrite summary_eq in Hsum. injection Hsum as _ <-. exact Hc'.
  - rewrite summary_eq in Hsum. injection Hsum as <- <-.
    apply elem_of_cons. right. apply elem_of_cons. left. reflexivity.
  - intros c n. rewrite (category_line env s' lines total c n Hsum).
    apply count_by_elem.
  - intros p n. rewrite (phase_line env s' lines total p n Hsum).
    apply count_by_elem.
  - rewrite summary_eq in Hsum. injection Hsum as <- <-. reflexivity.
Qed.

Lemma summary_reports_store_witness :
  let env := env_flaky ["/ead/curso/item-10"; "/ead/curso/item-12"; "/ead/curso/item-15"] in
  ∃ lines s',
    run_ultra_deep_discovery env 3 (init env None) = Returns (Completed lines 3) s' ∧
    length (requests s') = 60%nat ∧
    TotalUrlsDiscovered 3 ∈ lines ∧
    (CategoryCount "education" 3 ∈ lines ↔
     (0 < 3)%nat ∧
     3%nat = occurrences DiskStorage.entry_category "education"
               (DiskStorage.discovered_urls (DiskStorage.mapsite_file (storage s')))) ∧
    value_of (save_ultra_comprehensive_results env
                (set_failed {["https://www.example.com/ead/curso/item-10"]} s')) =
      Some (lines, 3%nat).
Proof.
  intros env.
  destruct (run_ultra_deep_discovery env 3 (init env None)) as [[lines total| |] s'|s'] eqn:Hrun;
    try (vm_compute in Hrun; discriminate).
  assert (Htotal : total = 3%nat).
  { vm_compute in Hrun. injection Hrun as _ <- _. reflexivity. }
  subst total.
  assert (Hreq : length (requests s') = 60%nat).
  { vm_compute in Hrun. injection Hrun as _ <-. vm_compute. reflexivity. }
  destruct (summary_reports_store env 3 (init env None) s' lines 3
              {["https://www.example.com/ead/curso/item-10"]} (eq_refl _) Hrun)
    as (_ & Ht & Hcat & _ & Hfail).
  exists lines, s'. split; [reflexivity|]. split; [exact Hreq|].
  split; [exact Ht|]. split; [apply Hcat | exact Hfail].
Defined.

End Claims_summary.

(** ** Threads adding the same URL *)

Section Threads.
Import DiskStorage Concurrent.

Lemma count_insert (f : pc → bool) (ts : list (call * pc)) (i : nat) (c : call) (p p' : pc) :
  ts !! i = Some (c, p) →
  (count f (<[i := (c, p')]> ts) + (if f p then 1 else 0) =
   count f ts + (if f p' then 1 else 0))%nat.
Proof.
  revert i. induction ts as [|[c0 p0] rest IH]; intros i Hi; [discriminate|].
  destruct i as [|i]; simpl in *.
  - injection Hi as -> ->. lia.
  - specialize (IH i Hi). lia.
Qed.

Lemma count_lookup (f : pc → bool) (ts : list (call * pc)) (i : nat) (c : call) (p : pc) :
  ts !! i = Some (c, p) → f p = true → (0 < count f ts)%nat.
Proof.
  revert i. induction ts as [|[c0 p0] rest IH]; intros i Hi Hf; [discriminate|].
  destruct i as [|i]; simpl in *.
  - injection Hi as -> ->. rewrite Hf. lia.
  - specialize (IH i Hi Hf). lia.
Qed.

Lemma count_two (f : pc → bool) (ts : list (call * pc)) (i j : nat) (c c' : call) (p p' : pc) :
  i ≠ j → ts !! i = Some (c, p) → ts !! j = Some (c', p') →
  f p = true → f p' = true → (2 ≤ count f ts)%nat.
Proof.
  revert i j. induction ts as [|[c0 p0] rest IH]; intros i j Hij Hi Hj Hf Hf'; [discriminate|].
  destruct i as [|i], j as [|j]; simpl in *; try congruence.
  - injection Hi as -> ->. rewrite Hf. pose proof (count_lookup f rest j c' p' Hj Hf'). lia.
  - injection Hj as -> ->. rewrite Hf'. pose proof (count_lookup f rest i c p Hi Hf). lia.
  - assert (i ≠ j) by congruence. specialize (IH i j H Hi Hj Hf Hf'). lia.
Qed.

Lemma count_exists (f : pc → bool) (ts : list (call * pc)) :
  (0 < count f ts)%nat → ∃ i c p, ts !! i = Some (c, p) ∧ f p = true.
Proof.
  induction ts as [|[c0 p0] rest IH]; simpl; [lia|].
  destruct (f p0) eqn:E.
  - intros _. exists 0%nat, c0, p0. split; [reflexivity | exact E].
  - intros H. destruct IH as (i & c & p & Hi & Hf); [lia|].
    exists (S i), c, p. split; [exact Hi | exact Hf].
Qed.

Lemma count_split (f g h : pc → bool) (ts : list (call * pc)) :
  (∀ p, (if f p then 1 else 0) = (if g p then 1 else 0) + (if h p then 1 else 0))%nat →
  count f ts = (count g ts + count h ts)%nat.
Proof.
  intros H. induction ts as [|[c0 p0] rest IH]; simpl; [reflexivity|].
  rewrite IH, (H p0). lia.
Qed.

Lemma count_ext (f g : pc → bool) (ts : list (call * pc)) :
  Forall (fun t : call * pc => f t.2 = g t.2) ts → count f ts = count g ts.
Proof.
  induction 1 as [|[c0 p0] rest Hx _ IH]; simpl; [reflexivity|].
  simpl in Hx. rewrite Hx, IH. reflexivity.
Qed.

Lemma count_length (f : pc → bool) (ts : list (call * pc)) :
  count f ts = length ts → Forall (fun t : call * pc => f t.2 = true) ts.
Proof.
  assert (Hle : ∀ l, (count f l ≤ length l)%nat).
  { induction l as [|[c0 p0] l IH]; simpl; [lia|]. destruct (f p0); lia. }
  induction ts as [|[c0 p0] rest IH]; simpl; intros H; [constructor|].
  pose proof (Hle rest). destruct (f p0) eqn:E; [|lia].
  constructor; [exact E | apply IH; lia].
Qed.

Lemma statements_insert (ts : list (call * pc)) (i : nat) (c : call) (p p' : pc) :
  ts !! i = Some (c, p) →
  (statements_run (<[i := (c, p')]> ts) + progress p = statements_run ts + progress p')%nat.
Proof.
  revert i. induction ts as [|[c0 p0] rest IH]; intros i Hi; [discriminate|].
  destruct i as [|i]; simpl in *.
  - injection Hi as -> ->. lia.
  - specialize (IH i Hi). lia.
Qed.

Lemma known_records (d : DiskStorage.t) (url : string) :
  is_url_already_discovered d url = true → (0 < length (records_for url d))%nat.
Proof.
  intros Hk. apply known_iff in Hk. unfold records_for.
  induction (discovered_urls (mapsite_file d)) as [|e l IH]; [inversion Hk|].
  rewrite fmap_cons in Hk. apply elem_of_cons in Hk as [-> | Hk].
  - rewrite filter_cons_True by reflexivity. simpl. lia.
  - specialize (IH Hk). destruct (decide (entry_url e = url)) as [E|E].
    + rewrite filter_cons_True by exact E. simpl. lia.
    + rewrite filter_cons_False by exact E. exact IH.
Qed.

(** A thread alone does what the sequential function does. *)
Lemma alone_is_add_url (c : call) (d : DiskStorage.t) :
  let w := run [0; 0; 0; 0; 0]%nat (start d [c]) in
  let r := add_url_to_mapsite (call_now c) (call_url c) (call_category c) (call_phase c)
             (call_depth c) d in
  threads w = [(c, Returned r.1)] ∧ disk w = r.2 ∧ lock_held w = false.
Proof.
  unfold add_url_to_mapsite, start. simpl.
  unfold step. simpl. unfold _load_mapsite.
  destruct (bool_decide (call_url c ∉ existing_urls (mapsite_file d))); simpl;
    unfold step; simpl.
  - repeat split.
  - repeat split.
Qed.

(** Every statement a thread runs is counted once. *)
Lemma step_counts (i : nat) (w w' : world) :
  step i w = Some w' → statements_run (threads w') = S (statements_run (threads w)).
Proof.
  unfold step. destruct (threads w !! i) as [[c p]|] eqn:Hi; [|discriminate].
  destruct (thread_step c p (disk w) (lock_held w)) as [[[p' d'] held']|] eqn:Hs;
    [|discriminate].
  intros [= <-]. simpl.
  pose proof (statements_insert (threads w) i c p p' Hi) as H.
  assert (Hp : progress p' = S (progress p)).
  { destruct p as [| |m|m|[|]|r]; simpl in Hs.
    - destruct (lock_held w); [discriminate|]. injection Hs as <- _ _. reflexivity.
    - injection Hs as <- _ _. reflexivity.
    - destruct (bool_decide _); injection Hs as <- _ _; reflexivity.
    - injection Hs as <- _ _. reflexivity.
    - injection Hs as <- _ _. reflexivity.
    - injection Hs as <- _ _. reflexivity.
    - discriminate. }
  lia.
Qed.

Lemma invariant_start (url : string) (d : DiskStorage.t) (calls : list call) :
  Forall (fun c => call_url c = url) calls →
  is_url_already_discovered d url = false →
  invariant url (start d calls).
Proof.
  intros Hcalls Hnew.
  assert (Hcount : ∀ f, f AtLock = false →
            count f ((fun c => (c, AtLock)) <$> calls) = 0%nat).
  { intros f Hf. induction calls as [|c rest IH]; simpl; [reflexivity|].
    rewrite Hf. apply IH. inversion Hcalls; assumption. }
  assert (Hat : ∀ i c p, ((fun c => (c, AtLock)) <$> calls) !! i = Some (c, p) → p = AtLock).
  { intros i c p Hi. rewrite list_lookup_fmap in Hi.
    destruct (calls !! i); [|discriminate]. injection Hi as _ <-. reflexivity. }
  constructor; simpl.
  - apply Forall_fmap. eapply Forall_impl; [exact Hcalls|]. intros c Hc. exact Hc.
  - apply Hcount. reflexivity.
  - intros i c m Hi. apply Hat in Hi. discriminate.
  - intros i c m Hi. apply Hat in Hi. discriminate.
  - rewrite records_for_unknown by exact Hnew. rewrite Hcount; reflexivity.
  - rewrite Hcount by reflexivity. lia.
  - rewrite records_for_unknown by exact Hnew. simpl. lia.
Qed.

Lemma only_one_inside (ts : list (call * pc)) (held : bool) (i j : nat)
    (c c' : call) (p p' : pc) :
  count inside ts = (if held then 1%nat else 0%nat) →
  ts !! i = Some (c, p) → inside p = true →
  ts !! j = Some (c', p') → j ≠ i → inside p' = false.
Proof.
  intros Hone Hi Hp Hj Hne. destruct (inside p') eqn:E; [|reflexivity].
  assert (i ≠ j) as Hne' by congruence.
  pose proof (count_two inside ts i j c c' p p' Hne' Hi Hj Hp E).
  destruct held; lia.
Qed.

Lemma inside_holds_lock (ts : list (call * pc)) (held : bool) (i : nat) (c : call) (p : pc) :
  count inside ts = (if held then 1%nat else 0%nat) →
  ts !! i = Some (c, p) → inside p = true → held = true.
Proof.
  intros Hone Hi Hp. pose proof (count_lookup inside ts i c p Hi Hp).
  destruct held; [reflexivity | lia].
Qed.

Lemma lookup_insert_cases (ts : list (call * pc)) (i j : nat) (x y : call * pc) :
  <[i := x]> ts !! j = Some y → (j = i ∧ y = x) ∨ (j ≠ i ∧ ts !! j = Some y).
Proof.
  intros H. apply list_lookup_insert_Some in H as [(-> & -> & _) | (Hne & H)].
  - left. split; reflexivity.
  - right. split; [congruence | exact H].
Qed.

Lemma unknown_of_decide (d : DiskStorage.t) (url : string) :
  bool_decide (url ∉ existing_urls (mapsite_file d)) = true →
  is_url_already_discovered d url = false.
Proof.
  intros H. apply bool_decide_eq_true in H.
  unfold is_url_already_discovered, _load_mapsite. apply bool_decide_eq_false. exact H.
Qed.

Lemma known_of_decide (d : DiskStorage.t) (url : string) :
  bool_decide (url ∉ existing_urls (mapsite_file d)) = false →
  is_url_already_discovered d url = true.
Proof.
  intros H. apply bool_decide_eq_false in H.
  unfold is_url_already_discovered, _load_mapsite. apply bool_decide_eq_true.
  destruct (decide (url ∈ existing_urls (mapsite_file d))); [assumption | contradiction].
Qed.

Lemma records_after_save (c : call) (d : DiskStorage.t) :
  is_url_already_discovered d (call_url c) = false →
  length (records_for (call_url c)
            (_save_mapsite_update (appended c (mapsite_file d)) d)) = 1%nat ∧
  is_url_already_discovered (_save_mapsite_update (appended c (mapsite_file d)) d)
    (call_url c) = true.
Proof.
  intros Hnew. split.
  - unfold records_for. simpl. rewrite filter_app.
    fold (records_for (call_url c) d). rewrite records_for_unknown by exact Hnew.
    simpl. rewrite filter_cons_True by reflexivity. reflexivity.
  - apply known_iff. simpl. rewrite fmap_app, elem_of_app. right.
    apply list_elem_of_singleton. reflexivity.
Qed.

(** The invariant survives every statement of every thread. *)
Lemma invariant_step (url : string) (i : nat) (w w' : world) :
  invariant url w → step i w = Some w' → invariant url w'.
Proof.
  intros [Hurls Hone Hload Happ Hrec Hrefused Hmost].
  unfold step. destruct w as [d held ts]. simpl in *.
  destruct (ts !! i) as [[c p]|] eqn:Hi; [|discriminate].
  assert (Hc : call_url c = url).
  { eapply (Forall_lookup_1 _ _ _ _ Hurls) in Hi. exact Hi. }
  assert (Hsame : ∀ p', Forall (fun t : call * pc => call_url t.1 = url) (<[i := (c, p')]> ts)).
  { intros p'. apply Forall_insert; [exact Hurls | exact Hc]. }
  pose proof (fun f p' => count_insert f ts i c p p' Hi) as Hcount.
  destruct p as [| |m|m|r|r]; simpl.
  - (* acquire *)
    destruct held; [discriminate|]. intros [= <-].
    constructor; simpl.
    + apply Hsame.
    + specialize (Hcount inside Locked). simpl in Hcount. lia.
    + intros j c' m Hj. apply lookup_insert_cases in Hj as [[_ [=]] | [_ Hj]].
      eapply Hload, Hj.
    + intros j c' m Hj. apply lookup_insert_cases in Hj as [[_ [=]] | [_ Hj]].
      eapply Happ, Hj.
    + specialize (Hcount (decided true) Locked). simpl in Hcount. lia.
    + specialize (Hcount (decided false) Locked). simpl in Hcount.
      intros H. apply Hrefused. lia.
    + exact Hmost.
  - (* load *)
    intros [= <-]. constructor; simpl.
    + apply Hsame.
    + specialize (Hcount inside (Loaded (_load_mapsite d))). simpl in Hcount. lia.
    + intros j c' m Hj. apply lookup_insert_cases in Hj as [[_ [= _ ->]] | [_ Hj]].
      * reflexivity.
      * eapply Hload, Hj.
    + intros j c' m Hj. apply lookup_insert_cases in Hj as [[_ [=]] | [_ Hj]].
      eapply Happ, Hj.
    + specialize (Hcount (decided true) (Loaded (_load_mapsite d))). simpl in Hcount. lia.
    + specialize (Hcount (decided false) (Loaded (_load_mapsite d))). simpl in Hcount.
      intros H. apply Hrefused. lia.
    + exact Hmost.
  - (* the test *)
    pose proof (Hload i c m Hi) as ->.
    destruct (bool_decide (call_url c ∉ existing_urls (mapsite_file d))) eqn:Hnew;
      intros [= <-]; constructor; simpl.
    + apply Hsame.
    + specialize (Hcount inside (Appended (appended c (mapsite_file d)))).
      simpl in Hcount. lia.
    + intros j c' m Hj. apply lookup_insert_cases in Hj as [[_ [=]] | [_ Hj]].
      eapply Hload, Hj.
    + intros j c' m Hj. apply lookup_insert_cases in Hj as [[_ [= -> ->]] | [_ Hj]].
      * split; [reflexivity|]. rewrite <- Hc. apply unknown_of_decide, Hnew.
      * eapply Happ, Hj.
    + specialize (Hcount (decided true) (Appended (appended c (mapsite_file d)))).
      simpl in Hcount. lia.
    + specialize (Hcount (decided false) (Appended (appended c (mapsite_file d)))).
      simpl in Hcount. intros H. apply Hrefused. lia.
    + exact Hmost.
    + apply Hsame.
    + specialize (Hcount inside (Leaving false)). simpl in Hcount. lia.
    + intros j c' m Hj. apply lookup_insert_cases in Hj as [[_ [=]] | [_ Hj]].
      eapply Hload, Hj.
    + intros j c' m Hj. apply lookup_insert_cases in Hj as [[_ [=]] | [_ Hj]].
      eapply Happ, Hj.
    + specialize (Hcount (decided true) (Leaving false)). simpl in Hcount. lia.
    + intros _. rewrite <- Hc. apply known_of_decide, Hnew.
    + exact Hmost.
  - (* the save *)
    destruct (Happ i c m Hi) as [-> Hnew]. rewrite <- Hc in Hnew.
    destruct (records_after_save c d Hnew) as [Hlen Hknown]. rewrite Hc in Hlen, Hknown.
    assert (Hothers : ∀ j c' p', ts !! j = Some (c', p') → j ≠ i → inside p' = false).
    { intros j c' p' Hj Hne.
      exact (only_one_inside ts held i j c c' _ p' Hone Hi eq_refl Hj Hne). }
    intros [= <-]. constructor; simpl.
    + apply Hsame.
    + specialize (Hcount inside (Leaving true)). simpl in Hcount. lia.
    + intros j c' m Hj. apply lookup_insert_cases in Hj as [[_ [=]] | [Hne Hj]].
      specialize (Hothers j c' _ Hj Hne). discriminate.
    + intros j c' m Hj. apply lookup_insert_cases in Hj as [[_ [=]] | [Hne Hj]].
      specialize (Hothers j c' _ Hj Hne). discriminate.
    + rewrite Hlen. specialize (Hcount (decided true) (Leaving true)). simpl in Hcount.
      rewrite Hc in Hnew. rewrite (records_for_unknown _ _ Hnew) in Hrec. simpl in Hrec. lia.
    + intros _. exact Hknown.
    + rewrite Hlen. lia.
  - (* release *)
    intros [= <-].
    pose proof (inside_holds_lock ts held i c (Leaving r) Hone Hi eq_refl) as ->.
    constructor; simpl.
    + apply Hsame.
    + specialize (Hcount inside (Returned r)). simpl in Hcount. lia.
    + intros j c' m Hj. apply lookup_insert_cases in Hj as [[_ [=]] | [_ Hj]].
      eapply Hload, Hj.
    + intros j c' m Hj. apply lookup_insert_cases in Hj as [[_ [=]] | [_ Hj]].
      eapply Happ, Hj.
    + specialize (Hcount (decided true) (Returned r)). simpl in Hcount. lia.
    + specialize (Hcount (decided false) (Returned r)). simpl in Hcount.
      intros H. apply Hrefused. lia.
    + exact Hmost.
  - discriminate.
Qed.

Lemma invariant_run (url : string) (schedule : list nat) :
  ∀ w, invariant url w → invariant url (run schedule w).
Proof.
  induction schedule as [|i rest IH]; intros w Hw; simpl; [exact Hw|].
  apply IH. destruct (step i w) as [w'|] eqn:Hs; simpl; [|exact Hw].
  eapply invariant_step; eassumption.
Qed.

Lemma threads_run (schedule : list nat) :
  ∀ w, length (threads (run schedule w)) = length (threads w).
Proof.
  induction schedule as [|i rest IH]; intros w; simpl; [reflexivity|].
  rewrite IH. unfold step.
  destruct (threads w !! i) as [[c p]|]; [|reflexivity].
  destruct (thread_step c p (disk w) (lock_held w)) as [[[p' d'] held']|]; [|reflexivity].
  simpl. apply length_insert.
Qed.

(** When all threads have returned, one has returned [true], the others
    [false], and the disk holds one record. *)
Lemma finished_results (url : string) (w : world) :
  invariant url w → finished w → threads w ≠ [] →
  count (has_returned true) (threads w) = 1%nat ∧
  count (has_returned false) (threads w) = (length (threads w) - 1)%nat ∧
  length (records_for url (disk w)) = 1%nat.
Proof.
  intros [Hurls Hone Hload Happ Hrec Hrefused Hmost] Hfin Hne.
  unfold finished in Hfin. pose proof (count_length _ _ Hfin) as Hall.
  assert (Htrue : count (decided true) (threads w) = count (has_returned true) (threads w)).
  { apply count_ext. eapply Forall_impl; [exact Hall|].
    intros [c p] Hp. simpl in *. destruct p; try discriminate. reflexivity. }
  assert (Hfalse : count (decided false) (threads w) =
                   count (has_returned false) (threads w)).
  { apply count_ext. eapply Forall_impl; [exact Hall|].
    intros [c p] Hp. simpl in *. destruct p; try discriminate. reflexivity. }
  assert (Hsum : count is_returned (threads w) =
                 (count (has_returned true) (threads w) +
                  count (has_returned false) (threads w))%nat).
  { apply count_split. intros [| | | | |[|]]; reflexivity. }
  assert (Hlen : (0 < length (threads w))%nat).
  { destruct (threads w); [congruence | simpl; lia]. }
  rewrite <- Htrue, <- Hfalse in *. rewrite <- Hrec.
  destruct (Nat.eq_dec (count (decided false) (threads w)) 0) as [Hz | Hnz].
  - lia.
  - assert (Hk : is_url_already_discovered (disk w) url = true) by (apply Hrefused; lia).
    apply known_records in Hk. lia.
Qed.

(** While a thread has not returned, some thread can run a statement. *)
Lemma some_thread_moves (url : string) (w : world) :
  invariant url w → ¬ finished w → ∃ i w', step i w = Some w'.
Proof.
  intros [Hurls Hone Hload Happ Hrec Hrefused Hmost] Hnot.
  assert (Hpending : ∃ i c p, threads w !! i = Some (c, p) ∧ is_returned p = false).
  { unfold finished in Hnot. clear -Hnot.
    induction (threads w) as [|[c p] rest IH]; simpl in *; [congruence|].
    destruct (is_returned p) eqn:E.
    - destruct IH as (i & c' & p' & Hi & Hp); [lia|].
      exists (S i), c', p'. split; assumption.
    - exists 0%nat, c, p. split; [reflexivity | exact E]. }
  destruct (lock_held w) eqn:Hheld.
  - destruct (count_exists inside (threads w)) as (i & c & p & Hi & Hp); [lia|].
    exists i. unfold step. rewrite Hi.
    destruct p as [| |m|m|r|r]; try discriminate; simpl; try (eexists; reflexivity).
    destruct (bool_decide _); eexists; reflexivity.
  - destruct Hpending as (i & c & p & Hi & Hp).
    assert (Hout : inside p = false).
    { destruct (inside p) eqn:E; [|reflexivity].
      pose proof (count_lookup inside (threads w) i c p Hi E). lia. }
    exists i. unfold step. rewrite Hi.
    destruct p; try discriminate. simpl. rewrite Hheld. eexists. reflexivity.
Qed.

Lemma run_app (s1 s2 : list nat) :
  ∀ w, run (s1 ++ s2) w = run s2 (run s1 w).
Proof. induction s1 as [|i rest IH]; intros w; simpl; [reflexivity | apply IH]. Qed.

Lemma statements_bounded (url : string) (w : world) :
  invariant url w → (statements_run (threads w) ≤ 4 * length (threads w) + 1)%nat.
Proof.
  intros [_ _ _ _ Hrec _ Hmost].
  assert (H : ∀ ts, (statements_run ts ≤ 4 * length ts + count (decided true) ts)%nat).
  { induction ts as [|[c p] rest IH]; simpl; [lia|].
    assert (progress p ≤ 4 + (if decided true p then 1 else 0))%nat
      by (destruct p as [| | | |[|]|[|]]; simpl; lia).
    lia. }
  specialize (H (threads w)). lia.
Qed.

(** From every world the threads can reach, they can all run to their
    return. *)
Lemma can_finish (url : string) (k : nat) :
  ∀ w, invariant url w →
       (4 * length (threads w) + 1 - statements_run (threads w) ≤ k)%nat →
       ∃ more, finished (run more w).
Proof.
  induction k as [|k IH]; intros w Hinv Hk.
  - exists []. simpl.
    destruct (decide (finished w)) as [Hf | Hnf]; [exact Hf|].
    destruct (some_thread_moves url w Hinv Hnf) as (i & w' & Hstep).
    pose proof (step_counts i w w' Hstep) as Hs.
    pose proof (statements_bounded url w' (invariant_step url i w w' Hinv Hstep)) as Hb.
    assert (length (threads w') = length (threads w)) as Hl.
    { change w' with (default w (Some w')). rewrite <- Hstep.
      apply (threads_run [i] w). }
    lia.
  - destruct (decide (finished w)) as [Hf | Hnf]; [exists []; exact Hf|].
    destruct (some_thread_moves url w Hinv Hnf) as (i & w' & Hstep).
    pose proof (step_counts i w w' Hstep) as Hs.
    assert (length (threads w') = length (threads w)) as Hl.
    { change w' with (default w (Some w')). rewrite <- Hstep.
      apply (threads_run [i] w). }
    destruct (IH w' (invariant_step url i w w' Hinv Hstep)) as (more & Hmore); [lia|].
    exists (i :: more). simpl. rewrite Hstep. exact Hmore.
Qed.

(** X1. Threads that call [add_url_to_mapsite] with the same URL, not yet
    on disk, under any interleaving of their statements: once all have
    returned, exactly one has returned [true], the others [false], and the
    disk holds exactly one record for the URL; at no moment does it hold
    two.  The executions cannot get stuck: while a thread has not returned
    some thread can move, and from every moment on the threads can all run
    to their return. *)
Theorem concurrent_adds_serialize (d : DiskStorage.t) (calls : list call) (url : string)
    (schedule : list nat) :
  calls ≠ [] →
  Forall (fun c => call_url c = url) calls →
  is_url_already_discovered d url = false →
  let w := run schedule (start d calls) in
  (finished w →
     count (has_returned true) (threads w) = 1%nat ∧
     count (has_returned false) (threads w) = (length calls - 1)%nat ∧
     length (records_for url (disk w)) = 1%nat) ∧
  (length (records_for url (disk w)) ≤ 1)%nat ∧
  (¬ finished w → ∃ i w', step i w = Some w') ∧
  (∃ more, finished (run (schedule ++ more) (start d calls))).
Proof.
  intros Hne Hurl Hnew w.
  assert (Hinv : invariant url w).
  { apply invariant_run, invariant_start; assumption. }
  assert (Hlen : length (threads w) = length calls).
  { unfold w. rewrite threads_run. simpl. apply length_fmap. }
  split; [|split; [|split]].
  - intros Hfin. rewrite <- Hlen. apply finished_results; [exact Hinv | exact Hfin|].
    intros Hnil. rewrite Hnil in Hlen. destruct calls; [congruence | discriminate].
  - apply Hinv.
  - apply some_thread_moves with url. exact Hinv.
  - destruct (can_finish url _ w Hinv (Nat.le_refl _)) as (more & Hmore).
    exists more. rewrite run_app. exact Hmore.
Qed.

End Threads.

Section Claims_threads.
Import DiskStorage Concurrent.

Lemma concurrent_adds_serialize_witness :
  let w := run round_robin (start (init "0" None) three_calls) in
  finished w ∧
  count (has_returned true) (threads w) = 1%nat ∧
  count (has_returned false) (threads w) = 2%nat ∧
  length (records_for "https://www.example.com/a" (disk w)) = 1%nat.
Proof.
  intros w.
  assert (Hfin : finished w) by (vm_compute; reflexivity).
  destruct (concurrent_adds_serialize (init "0" None) three_calls
              "https://www.example.com/a" round_robin) as (Hres & _).
  - discriminate.
  - repeat constructor.
  - vm_compute. reflexivity.
  - split; [exact Hfin|]. apply Hres. exact Hfin.
Defined.

End Claims_threads.

(** * Further properties of the code *)

(** ** DiskStorage *)

Section Store_more.
Import DiskStorage.

(** X2. [add_url_to_mapsite] answers [true] exactly when the URL was not on
    disk; afterwards the disk knows that URL and whatever it knew before,
    nothing else; the old records are still there, in place, and the
    scraped files are untouched. *)
Theorem add_url_then_known (now url category phase : string) (depth : nat)
    (d : DiskStorage.t) (other : string) :
  let r := add_url_to_mapsite now url category phase depth d in
  r.1 = negb (is_url_already_discovered d url) ∧
  is_url_already_discovered r.2 other =
    is_url_already_discovered d other || String.eqb other url ∧
  discovered_urls (mapsite_file d) `prefix_of` discovered_urls (mapsite_file r.2) ∧
  scrapped_dir r.2 = scrapped_dir d.
Proof.
  cbv zeta. destruct (is_url_already_discovered d url) eqn:E.
  - rewrite add_known by exact E. simpl. split; [reflexivity|].
    split; [|split; [reflexivity | reflexivity]].
    destruct (String.eqb other url) eqn:Eo.
    + apply String.eqb_eq in Eo as ->. rewrite E. reflexivity.
    + rewrite orb_false_r. reflexivity.
  - rewrite add_new by exact E. simpl. split; [reflexivity|].
    split; [|split; [apply prefix_app_r; reflexivity | reflexivity]].
    destruct (is_url_already_discovered d other) eqn:Ed; simpl.
    + apply known_iff. apply known_iff in Ed. simpl.
      rewrite fmap_app, elem_of_app. left. exact Ed.
    + destruct (String.eqb other url) eqn:Eo.
      * apply String.eqb_eq in Eo as ->. apply known_iff. simpl.
        rewrite fmap_app, elem_of_app. right. apply list_elem_of_singleton. reflexivity.
      * apply String.eqb_neq in Eo. apply unknown_iff. apply unknown_iff in Ed. simpl.
        rewrite fmap_app, elem_of_app. intros [H | H]; [contradiction|].
        apply list_elem_of_singleton in H. contradiction.
Qed.

(** The URLs on disk stay pairwise different under [add_url_to_mapsite]. *)
Lemma add_no_duplicates (now url category phase : string) (depth : nat) (d : DiskStorage.t) :
  NoDup (entry_url <$> discovered_urls (mapsite_file d)) →
  NoDup (entry_url <$>
         discovered_urls (mapsite_file (add_url_to_mapsite now url category phase depth d).2)).
Proof.
  intros Hnd. destruct (is_url_already_discovered d url) eqn:E.
  - rewrite add_known by exact E. exact Hnd.
  - rewrite add_new by exact E. simpl. rewrite fmap_app. apply NoDup_app.
    split; [exact Hnd|]. split; [|apply NoDup_singleton].
    intros u Hu Hin. apply list_elem_of_singleton in Hin. subst u.
    apply unknown_iff in E. contradiction.
Qed.

Lemma bump_sum (key : string) (counts : list (string * nat)) :
  sum_list_with snd (Dict.bump key counts) = S (sum_list_with snd counts).
Proof.
  induction counts as [|[k n] rest IH]; [reflexivity|].
  simpl. destruct (String.eqb k key); simpl; [reflexivity|].
  rewrite IH. lia.
Qed.

Lemma count_by_sum (key : url_entry → string) (l : list url_entry) :
  sum_list_with snd (count_by key l) = length l.
Proof.
  unfold count_by. induction l as [|e l IH] using rev_ind; [reflexivity|].
  rewrite fold_left_app. simpl. rewrite bump_sum, IH, length_app. simpl. lia.
Qed.

(** X3. [get_current_stats]: each category and each phase is listed once, and
    the counts by category, like the counts by phase, add up to the number
    of records. *)
Theorem stats_add_up (d : DiskStorage.t) :
  let stats := get_current_stats d in
  NoDup (categories stats).*1 ∧ NoDup (phases stats).*1 ∧
  sum_list_with snd (categories stats) = length (discovered_urls (mapsite_file d)) ∧
  sum_list_with snd (phases stats) = length (discovered_urls (mapsite_file d)).
Proof.
  cbv zeta. unfold get_current_stats, _load_mapsite. simpl.
  split; [apply count_by_lookup|]. split; [apply count_by_lookup|].
  split; apply count_by_sum.
Qed.

Lemma take_length (n : nat) (s : string) : (String.length (take n s) ≤ n)%nat.
Proof.
  revert s. induction n as [|n IH]; intros [|x s]; simpl; try lia.
  specialize (IH s). lia.
Qed.

Lemma prefix_empty (s : string) : String.prefix "" s = true.
Proof. destruct s; reflexivity. Qed.

Lemma contains_char_cons (c x : ascii) (s : string) :
  Str.contains (String c EmptyString) (String x s) =
  Ascii.eqb c x || Str.contains (String c EmptyString) s.
Proof.
  simpl. destruct (ascii_dec c x) as [->|Hne].
  - rewrite prefix_empty, Ascii.eqb_refl. reflexivity.
  - apply Ascii.eqb_neq in Hne. rewrite Hne. reflexivity.
Qed.

Lemma contains_char_nil (c : ascii) : Str.contains (String c EmptyString) "" = false.
Proof. reflexivity. Qed.

Lemma take_map_clean (n : nat) (s : string) (bad : ascii) :
  slash_to_underscore bad ≠ bad →
  Str.contains (String bad EmptyString) (take n (Str.map slash_to_underscore s)) = false.
Proof.
  intros Hbad. revert s. induction n as [|n IH]; intros [|x s]; try reflexivity.
  cbn [Str.map take]. rewrite contains_char_cons, IH, orb_false_r.
  destruct (Ascii.eqb bad (slash_to_underscore x)) eqn:E; [|reflexivity].
  exfalso. apply Ascii.eqb_eq in E. apply Hbad. rewrite E.
  unfold slash_to_underscore at 2 3.
  destruct (Ascii.eqb x "/" || Ascii.eqb x "?" || Ascii.eqb x "&") eqn:Ex; [reflexivity|].
  unfold slash_to_underscore. rewrite Ex. reflexivity.
Qed.

(** X4. [_url_to_filename]: the name is the hash, an underscore, a readable
    part of at most 50 characters with no slash, question mark or
    ampersand, and [.json]; it fails only when [urlparse] does. *)
Theorem filename_is_safe (urlparse : string → option url_parts)
    (md5_hexdigest : string → string) (url : string) :
  match _url_to_filename urlparse md5_hexdigest url with
  | Ok name =>
      ∃ readable,
        name = md5_hexdigest url +:+ "_" +:+ readable +:+ ".json" ∧
        (String.length readable ≤ 50)%nat ∧
        Str.contains "/" readable = false ∧
        Str.contains "?" readable = false ∧
        Str.contains "&" readable = false
  | Raised => urlparse url = None
  end.
Proof.
  unfold _url_to_filename. destruct (urlparse url) as [parsed|]; [|reflexivity].
  eexists. split; [reflexivity|]. split; [apply take_length|].
  repeat split; apply take_map_clean; discriminate.
Qed.


End Store_more.

(** ** ContentClassifier *)

Section Classifier_more.
Import ContentClassifier.

Lemma extract_category_names (pattern url : string) :
  _extract_category pattern url ∈
    ["education"; "content"; "services"; "events"; "products"; "podcast"; "recipes";
     "calculators"; "archive"; "high_priority"].
Proof.
  unfold _extract_category.
  repeat (match goal with
          | |- context [if ?b then _ else _] => destruct b
          end;
          [refine (proj1 (bool_decide_eq_true _) _); vm_compute; reflexivity|]).
  refine (proj1 (bool_decide_eq_true _) _). vm_compute. reflexivity.
Qed.

(** X6. [classify_url] never gives a priority other than 0 and 1 (the tier 2 of
    its docstring does not occur): 0 goes with the categories invalid,
    external and excluded, 1 with every other category; and it raises only
    when [urlparse] does. *)
Theorem classify_priority (urlparse : string → option url_parts)
    (base_domain url : string) :
  match classify_url urlparse base_domain url with
  | Ok (category, priority) =>
      (priority = 0%nat ∧ category ∈ ["invalid"; "external"; "excluded"]) ∨
      (priority = 1%nat ∧
       category ∈ ["file_downloads"; "education"; "content"; "services"; "events";
                   "products"; "podcast"; "recipes"; "calculators"; "archive";
                   "high_priority"; "medium_priority"; "general"])
  | Raised => Str.startswith url "http" = true ∧ urlparse url = None
  end.
Proof.
  unfold classify_url.
  destruct (String.eqb url "" || negb (Str.startswith url "http")) eqn:Hhttp.
  { left. split; [reflexivity|]. apply elem_of_cons. left. reflexivity. }
  apply orb_false_elim in Hhttp as [_ Hhttp]. apply negb_false_iff in Hhttp.
  destruct (urlparse url) as [parsed|]; [|split; [exact Hhttp | reflexivity]].
  destruct (negb (Str.contains base_domain (netloc parsed))).
  { left. split; [reflexivity|]. do 1 (apply elem_of_cons; right).
    apply elem_of_cons. left. reflexivity. }
  destruct (matches_any exclude_patterns url).
  { left. split; [reflexivity|]. do 2 (apply elem_of_cons; right).
    apply elem_of_cons. left. reflexivity. }
  destruct (matches_any file_download_patterns url).
  { right. split; [reflexivity|]. apply elem_of_cons. left. reflexivity. }
  destruct (first_match high_priority_patterns url) as [pattern|].
  { right. split; [reflexivity|].
    pose proof (extract_category_names pattern url) as H.
    apply elem_of_cons. right.
    repeat (apply elem_of_cons in H as [-> | H];
            [refine (proj1 (bool_decide_eq_true _) _); vm_compute; reflexivity|]).
    inversion H. }
  destruct (matches_any medium_priority_patterns url);
    (right; split; [reflexivity|]);
    refine (proj1 (bool_decide_eq_true _) _); vm_compute; reflexivity.
Qed.

Lemma invalid_only_without_http (urlparse : string → option url_parts)
    (base_domain url : string) (priority : nat) :
  classify_url urlparse base_domain url = Ok ("invalid", priority) →
  Str.startswith url "http" = false.
Proof.
  unfold classify_url.
  destruct (String.eqb url "" || negb (Str.startswith url "http")) eqn:Hhttp.
  { intros _. apply orb_true_iff in Hhttp as [H | H].
    - apply String.eqb_eq in H as ->. reflexivity.
    - apply negb_true_iff, H. }
  destruct (urlparse url) as [parsed|]; [|discriminate].
  destruct (negb (Str.contains base_domain (netloc parsed))); [discriminate|].
  destruct (matches_any exclude_patterns url); [discriminate|].
  destruct (matches_any file_download_patterns url); [discriminate|].
  destruct (first_match high_priority_patterns url) as [pattern|].
  - intros [= Hcat _]. pose proof (extract_category_names pattern url) as H.
    rewrite Hcat in H. exfalso. revert H. refine (proj1 (bool_decide_eq_false _) _).
    vm_compute. reflexivity.
  - destruct (matches_any medium_priority_patterns url); discriminate.
Qed.

Lemma anchored_not_later (ic : bool) (r : Re.regex) (s : string) :
  Re.search_from ic (Re.Cat Re.Bol r) false s = false.
Proof. induction s as [|x s IH]; simpl; [reflexivity | exact IH]. Qed.

Lemma anchored_at_start (ic : bool) (r : Re.regex) (s : string) :
  Re.search_from ic (Re.Cat Re.Bol r) true s =
  Re.matches ic r true s (fun _ _ => true).
Proof.
  destruct s as [|x s]; simpl; [apply orb_false_r|].
  rewrite anchored_not_later. apply orb_false_r.
Qed.

Lemma starts_with_h (url : string) :
  Str.startswith url "http" = true → ∃ rest, url = String "h" rest.
Proof.
  unfold Str.startswith. destruct url as [|x rest]; [discriminate|].
  cbn [String.prefix]. destruct (ascii_dec "h" x) as [<-|]; [|discriminate].
  intros _. eexists. reflexivity.
Qed.

(** X7. The exclude patterns [^tel:], [^mailto:] and [^#] cannot match a URL
    that starts with [http], and [classify_url] looks at no other URL: when
    it answers "excluded", the logout, tracking or social-media pattern has
    matched. *)
Theorem anchored_excludes_are_dead (urlparse : string → option url_parts)
    (base_domain url : string) :
  (Str.startswith url "http" = true →
   Re.search true "^tel:" url = false ∧
   Re.search true "^mailto:" url = false ∧
   Re.search true "^#" url = false) ∧
  (∀ priority, classify_url urlparse base_domain url = Ok ("excluded", priority) →
   matches_any ["/user/logout"; "utm_source=";
                "facebook\.com|twitter\.com|instagram\.com|linkedin\.com"] url = true).
Proof.
  assert (Hdead : Str.startswith url "http" = true →
                  Re.search true "^tel:" url = false ∧
                  Re.search true "^mailto:" url = false ∧
                  Re.search true "^#" url = false).
  { intros Hhttp. destruct (starts_with_h url Hhttp) as [rest ->].
    unfold Re.search.
    repeat split;
      match goal with
      | |- context [Re.compile ?p] =>
          let c := eval vm_compute in (Re.compile p) in
          change (Re.compile p) with c
      end;
      cbv beta iota; rewrite anchored_at_start; reflexivity. }
  split; [exact Hdead|].
  intros priority. unfold classify_url.
  destruct (String.eqb url "" || negb (Str.startswith url "http")) eqn:Hhttp;
    [discriminate|].
  apply orb_false_elim in Hhttp as [_ Hhttp]. apply negb_false_iff in Hhttp.
  destruct (urlparse url) as [parsed|]; [|discriminate].
  destruct (negb (Str.contains base_domain (netloc parsed))); [discriminate|].
  destruct (matches_any exclude_patterns url) eqn:Hex.
  - intros _. destruct (Hdead Hhttp) as (Htel & Hmail & Hhash).
    unfold matches_any, exclude_patterns in Hex. simpl in Hex.
    rewrite Htel, Hmail, Hhash in Hex. simpl in Hex.
    unfold matches_any. simpl. exact Hex.
  - destruct (matches_any file_download_patterns url); [discriminate|].
    destruct (first_match high_priority_patterns url) as [pattern|].
    + intros [= Hcat _]. pose proof (extract_category_names pattern url) as H.
      rewrite Hcat in H.
      exfalso. revert H. refine (proj1 (bool_decide_eq_false _) _).
      vm_compute. reflexivity.
    + destruct (matches_any medium_priority_patterns url); discriminate.
Qed.

Lemma anchored_excludes_are_dead_witness :
  (Re.search true "^tel:" "https://www.example.com/tel:123" = false ∧
   Re.search true "^mailto:" "https://www.example.com/tel:123" = false ∧
   Re.search true "^#" "https://www.example.com/tel:123" = false) ∧
  matches_any ["/user/logout"; "utm_source=";
               "facebook\.com|twitter\.com|instagram\.com|linkedin\.com"]
              "https://www.example.com/user/logout?x=1" = true.
Proof.
  split.
  - apply (anchored_excludes_are_dead Url.urlparse "www.example.com"
             "https://www.example.com/tel:123").
    reflexivity.
  - apply (proj2 (anchored_excludes_are_dead Url.urlparse "www.example.com"
                    "https://www.example.com/user/logout?x=1") 0%nat).
    vm_compute. reflexivity.
Defined.

End Classifier_more.

(** ** The link loop of [_process_complete_response] *)

Section Links_more.
Import UltraDeepMapsite Facts.
Variable env : Collaborators.

Lemma rstrip_keeps_head (c x : ascii) (s : string) :
  Ascii.eqb x c = false → Str.rstrip c (String x s) = String x (Str.rstrip c s).
Proof. intros Hx. simpl. rewrite Hx. destruct (Str.rstrip c s); reflexivity. Qed.

Lemma prefix_append (p a b : string) :
  String.prefix p a = true → String.prefix p (a +:+ b) = true.
Proof.
  revert a. induction p as [|x p IH]; intros a; [intros _; apply prefix_empty|].
  destruct a as [|y a]; [discriminate|]. simpl.
  destruct (ascii_dec x y); [apply IH | discriminate].
Qed.

Lemma prefix_same_head (x : ascii) (p s : string) :
  String.prefix (String x p) (String x s) = String.prefix p s.
Proof. simpl. destruct (ascii_dec x x); [reflexivity | contradiction]. Qed.

Lemma http_prefix_rstrip (base : string) :
  Str.startswith base "http" = true → Str.startswith (Str.rstrip "/" base) "http" = true.
Proof.
  unfold Str.startswith.
  destruct base as [|a [|b [|c [|e rest]]]]; try discriminate;
    cbn [String.prefix];
    repeat (match goal with
            | |- context [ascii_dec ?x ?y] => destruct (ascii_dec x y) as [<-|]
            end; try discriminate).
  intros _. rewrite !rstrip_keeps_head by reflexivity.
  rewrite !prefix_same_head. apply prefix_empty.
Qed.

Lemma dotdot_not_slash (url : string) :
  Str.startswith url "../" = true → Str.startswith url "/" = false.
Proof.
  unfold Str.startswith. destruct url as [|x rest]; [discriminate|].
  cbn [String.prefix]. destruct (ascii_dec "." x) as [<-|]; [|discriminate].
  intros _. reflexivity.
Qed.

Lemma http_not_relative (url : string) :
  Str.startswith url "http" = true →
  Str.startswith url "/" = false ∧ Str.startswith url "../" = false.
Proof.
  intros H. destruct (starts_with_h url H) as [rest ->]. split; reflexivity.
Qed.

(** X8. How a link is made absolute: the relative-URL branch drops a link
    exactly when it starts with [../]; a link that starts with [http] is
    kept as it is.  When the base URL starts with [http], every link that is
    not dropped resolves to a URL that starts with [http], a [mailto:],
    [tel:] or [#] link as well, so the classifier never calls a resolved
    link "invalid". *)
Theorem links_are_made_absolute (url : string) :
  (absolute env url = None ↔ Str.startswith url "../" = true) ∧
  (Str.startswith url "http" = true → absolute env url = Some url) ∧
  (Str.startswith (base_url env) "http" = true →
   ∀ resolved, absolute env url = Some resolved →
     Str.startswith resolved "http" = true ∧
     ∀ priority, ContentClassifier.classify_url (urlparse env) (base_domain env) resolved ≠
                 Ok ("invalid", priority)).
Proof.
  split; [|split].
  - unfold absolute. split.
    + destruct (Str.startswith url "/"); [discriminate|].
      destruct (Str.startswith url "../"); [reflexivity|].
      destruct (negb (Str.startswith url "http")); discriminate.
    + intros H. rewrite (dotdot_not_slash url H), H. reflexivity.
  - intros H. unfold absolute. destruct (http_not_relative url H) as [-> ->].
    rewrite H. reflexivity.
  - intros Hbase resolved Hres.
    assert (Hhttp : Str.startswith resolved "http" = true).
    { unfold absolute in Hres. pose proof (http_prefix_rstrip _ Hbase) as Hstrip.
      destruct (Str.startswith url "/").
      - injection Hres as <-. apply prefix_append, Hstrip.
      - destruct (Str.startswith url "../"); [discriminate|].
        destruct (Str.startswith url "http") eqn:E; simpl in Hres; injection Hres as <-.
        + exact E.
        + apply prefix_append, Hstrip. }
    split; [exact Hhttp|]. intros priority Hcl.
    apply invalid_only_without_http in Hcl. congruence.
Qed.



Lemma add_records (now url category phase : string) (depth : nat) (d : DiskStorage.t) :
  ∃ new,
    DiskStorage.discovered_urls
      (DiskStorage.mapsite_file
         (DiskStorage.add_url_to_mapsite now url category phase depth d).2) =
    DiskStorage.discovered_urls (DiskStorage.mapsite_file d) ++ new ∧
    Forall (fun e => DiskStorage.entry_url e = url ∧ DiskStorage.entry_phase e = phase ∧
                     DiskStorage.entry_depth e = depth) new.
Proof.
  destruct (DiskStorage.is_url_already_discovered d url) eqn:E.
  - rewrite add_known by exact E. exists []. rewrite app_nil_r. split; [reflexivity|constructor].
  - rewrite add_new by exact E. eexists. split; [reflexivity|].
    constructor; [repeat split | constructor].
Qed.

Lemma process_links_shape (ls : list link) (phase : string) (depth : nat) :
  ∀ (processed_urls : list string) (s : t),
    NoDup processed_urls → Forall (accepted env) processed_urls →
    match process_links env ls phase depth processed_urls s with
    | Returns urls s' =>
        NoDup urls ∧ Forall (accepted env) urls ∧ processed_urls `prefix_of` urls ∧
        Forall (fun u => u ∈ processed_urls ∨
                         ∃ l, l ∈ ls ∧ absolute env (link_text l) = Some u) urls ∧
        ∃ new, records s' = records s ++ new ∧ Forall (link_record phase depth urls) new
    | Raises s' =>
        ∃ new, records s' = records s ++ new ∧
               Forall (fun e => DiskStorage.entry_phase e = phase ∧
                                DiskStorage.entry_depth e = (depth + 1)%nat) new
    end.
Proof.
  induction ls as [|l rest IH]; intros processed s Hnd Ha.
  - simpl. split; [exact Hnd|]. split; [exact Ha|]. split; [reflexivity|]. split.
    + apply Forall_forall. intros u Hu. left. exact Hu.
    + exists []. rewrite app_nil_r. split; [reflexivity | constructor].
  - assert (Hskip :
      match process_links env rest phase depth processed s with
      | Returns urls s' =>
          NoDup urls ∧ Forall (accepted env) urls ∧ processed `prefix_of` urls ∧
          Forall (fun u => u ∈ processed ∨
                           ∃ l0, l0 ∈ l :: rest ∧ absolute env (link_text l0) = Some u) urls ∧
          ∃ new, records s' = records s ++ new ∧ Forall (link_record phase depth urls) new
      | Raises s' =>
          ∃ new, records s' = records s ++ new ∧
                 Forall (fun e => DiskStorage.entry_phase e = phase ∧
                                  DiskStorage.entry_depth e = (depth + 1)%nat) new
      end).
    { specialize (IH processed s Hnd Ha).
      destruct (process_links env rest phase depth processed s); [|exact IH].
      destruct IH as (H1 & H2 & H3 & H4 & H5). repeat split; try assumption.
      eapply Forall_impl; [exact H4|]. intros u [Hu | (l0 & Hl0 & Hres)].
      - left. exact Hu.
      - right. exists l0. split; [apply elem_of_cons; right; exact Hl0 | exact Hres]. }
    simpl. destruct (String.eqb (link_text l) ""); [exact Hskip|].
    destruct (absolute env (link_text l)) as [url|] eqn:Habs; [|exact Hskip].
    unfold bind at 1. rewrite classify_eq.
    destruct (ContentClassifier.classify_url _ _ url) as [[category priority]|] eqn:Hcl.
    2:{ exists []. rewrite app_nil_r. split; [reflexivity | constructor]. }
    destruct (0 <? priority)%nat eqn:Hpos; simpl; [|exact Hskip].
    destruct (bool_decide (url ∉ processed)) eqn:Hnew; [|exact Hskip].
    apply bool_decide_eq_true in Hnew.
    unfold bind at 1. rewrite add_url_eq. cbv zeta.
    destruct (add_records (strftime env (clock s)) url category phase (depth + 1) (storage s))
      as (new1 & Hrec1 & Hnew1).
    set (s1 := set_storage _ (advance_clock s)).
    assert (Hs1 : records s1 = records s ++ new1) by exact Hrec1.
    specialize (IH (processed ++ [url]) s1).
    destruct (process_links env rest phase depth (processed ++ [url]) s1) as [urls s'|s'].
    + destruct IH as (H1 & H2 & H3 & H4 & new2 & H5 & H6).
      { apply NoDup_app. split; [exact Hnd|]. split; [|apply NoDup_singleton].
        intros u Hu Hin. apply list_elem_of_singleton in Hin. subst u. contradiction. }
      { apply Forall_app. split; [exact Ha|]. constructor; [|constructor].
        exists category, priority. split; [exact Hcl | apply Nat.ltb_lt, Hpos]. }
      split; [exact H1|]. split; [exact H2|].
      split; [etrans; [apply prefix_app_r; reflexivity | exact H3]|].
      assert (Hin : url ∈ urls).
      { destruct H3 as [k ->]. rewrite !elem_of_app. left. right.
        apply list_elem_of_singleton. reflexivity. }
      split.
      * eapply Forall_impl; [exact H4|]. intros u [Hu | (l0 & Hl0 & Hres)].
        -- apply elem_of_app in Hu as [Hu | Hu]; [left; exact Hu|].
           apply list_elem_of_singleton in Hu. subst u.
           right. exists l. split; [apply elem_of_cons; left; reflexivity | exact Habs].
        -- right. exists l0. split; [apply elem_of_cons; right; exact Hl0 | exact Hres].
      * exists (new1 ++ new2). split; [rewrite H5, Hs1, app_assoc; reflexivity|].
        apply Forall_app. split; [|exact H6].
        eapply Forall_impl; [exact Hnew1|]. intros e (Hu & Hp & Hd).
        repeat split; [exact Hp | exact Hd | rewrite Hu; exact Hin].
    + destruct IH as (new2 & H5 & H6).
      { apply NoDup_app. split; [exact Hnd|]. split; [|apply NoDup_singleton].
        intros u Hu Hin. apply list_elem_of_singleton in Hin. subst u. contradiction. }
      { apply Forall_app. split; [exact Ha|]. constructor; [|constructor].
        exists category, priority. split; [exact Hcl | apply Nat.ltb_lt, Hpos]. }
      exists (new1 ++ new2). split; [rewrite H5, Hs1, app_assoc; reflexivity|].
      apply Forall_app. split; [|exact H6].
      eapply Forall_impl; [exact Hnew1|]. intros e (Hu & Hp & Hd). split; assumption.
Qed.

(** The URLs a processed response returns passed the classifier. *)
Lemma process_response_accepted (r : response) (source_url phase category : string)
    (depth : nat) (s s' : t) (urls : list string) :
  _process_complete_response env r source_url phase depth category s = Returns urls s' →
  Forall (accepted env) urls.
Proof.
  unfold _process_complete_response.
  destruct (save_content_eq env source_url r phase depth category s)
    as (saved & s1 & Hsave & _).
  rewrite (bind_returns _ _ _ _ _ Hsave).
  destruct (negb (has_links r)).
  - intros [= <- _]. constructor.
  - pose proof (process_links_shape (default [] (links r)) phase depth [] s1
                  (NoDup_nil_2) (Forall_nil_2 _)) as H.
    destruct (process_links env (default [] (links r)) phase depth [] s1) as [found sf|sf];
      [|discriminate].
    intros [= <- _]. destruct H as (_ & H2 & _). exact H2.
Qed.

(** X9. What [_process_complete_response] returns and writes: the URLs it
    returns are pairwise different, each is a link of the response made
    absolute and accepted by the classifier at a priority above 0; the
    records it appends to the mapsite are all for returned URLs and carry
    the phase it was given and the depth of the page plus one.  Old records
    are neither changed nor removed, also when it raises. *)
Theorem processed_links_shape (r : response) (source_url phase category : string)
    (depth : nat) (s : t) :
  match _process_complete_response env r source_url phase depth category s with
  | Returns urls s' =>
      NoDup urls ∧ Forall (accepted env) urls ∧
      Forall (fun u => ∃ l, l ∈ default [] (links r) ∧
                            absolute env (link_text l) = Some u) urls ∧
      ∃ new, records s' = records s ++ new ∧ Forall (link_record phase depth urls) new
  | Raises s' => ∃ new, records s' = records s ++ new
  end.
Proof.
  unfold _process_complete_response.
  destruct (save_content_eq env source_url r phase depth category s)
    as (saved & s1 & Hsave & _ & K & _).
  rewrite (bind_returns _ _ _ _ _ Hsave).
  assert (Hrec : records s1 = records s) by (unfold records; rewrite K; reflexivity).
  destruct (negb (has_links r)).
  - simpl. split; [constructor|]. split; [constructor|]. split; [constructor|].
    exists []. rewrite app_nil_r. split; [exact Hrec | constructor].
  - pose proof (process_links_shape (default [] (links r)) phase depth [] s1
                  (NoDup_nil_2) (Forall_nil_2 _)) as H.
    destruct (process_links env (default [] (links r)) phase depth [] s1) as [urls s'|s'].
    + destruct H as (H1 & H2 & _ & H4 & new & H5 & H6).
      split; [exact H1|]. split; [exact H2|]. split.
      * eapply Forall_impl; [exact H4|]. intros u [Hu | Hu]; [inversion Hu | exact Hu].
      * exists new. rewrite <- Hrec. split; assumption.
    + destruct H as (new & H5 & _). exists new. rewrite <- Hrec. exact H5.
Qed.

End Links_more.

Section Links_witnesses.
Import UltraDeepMapsite Facts.

Lemma links_are_made_absolute_witness :
  absolute (Scenario.env_with []) "https://other.com/x" = Some "https://other.com/x" ∧
  Str.startswith "https://www.example.com/mailto:a@b.c" "http" = true.
Proof.
  destruct (links_are_made_absolute (Scenario.env_with []) "https://other.com/x")
    as (_ & Hkeep & _).
  destruct (links_are_made_absolute (Scenario.env_with []) "mailto:a@b.c")
    as (_ & _ & Hbase).
  split.
  - apply Hkeep. reflexivity.
  - apply (Hbase eq_refl "https://www.example.com/mailto:a@b.c"). reflexivity.
Defined.

End Links_witnesses.

(** ** What a whole run preserves *)

Section Preserved.
Import UltraDeepMapsite Facts Counting.
Variable env : Collaborators.
Variable P : t → Prop.

Hypothesis P_add : ∀ stamp url category phase depth s,
  P s → P (set_storage
             (DiskStorage.add_url_to_mapsite stamp url category phase depth (storage s)).2 s).
Hypothesis P_save : ∀ stamp url r phase depth category s,
  P s → P (set_storage
             (DiskStorage.save_scraped_content (urlparse env) (md5_hexdigest env)
                stamp url r phase depth category (storage s)).2 s).
Hypothesis P_clock : ∀ s, P s → P (advance_clock s).
Hypothesis P_request : ∀ r s, P s → P (log_request r s).
Hypothesis P_queue : ∀ q qs s, P s → P (set_queue q qs s).
Hypothesis P_patterns : ∀ p s, P s → P (set_patterns p s).
Hypothesis P_failed : ∀ f s, P s → P (set_failed f s).
Hypothesis P_popped : ∀ url q s, P s → P (log_popped url q s).

Lemma kept_add (url category phase : string) (depth : nat) :
  keeps P (add_url_to_mapsite env url category phase depth).
Proof.
  intros s Hs. rewrite add_url_eq. simpl.
  apply (P_add _ _ _ _ _ (advance_clock s)), P_clock, Hs.
Qed.

Lemma kept_save (url : string) (r : response) (phase : string) (depth : nat)
    (category : string) :
  keeps P (save_scraped_content env url r phase depth category).
Proof.
  intros s Hs. unfold save_scraped_content, bind. simpl.
  pose proof (P_save (strftime env (clock s)) url r phase depth category
                (advance_clock s) (P_clock s Hs)) as H.
  simpl in H.
  destruct (DiskStorage.save_scraped_content _ _ _ _ _ _ _ _ _). exact H.
Qed.

Lemma kept_scrape (url : string) : keeps P (scrape env url).
Proof.
  intros s Hs. unfold scrape.
  destruct (scrape_url env (requests s) url); apply P_request, Hs.
Qed.

Lemma kept_process_links (ls : list link) (phase : string) (depth : nat) :
  ∀ processed, keeps P (process_links env ls phase depth processed).
Proof.
  induction ls as [|l rest IH]; intros processed; simpl; [apply keeps_ret|].
  destruct (String.eqb (link_text l) ""); [apply IH|].
  destruct (absolute env (link_text l)) as [url|]; [|apply IH].
  apply keeps_bind; [apply keeps_lift|]. intros [category priority].
  apply keeps_if; [|apply IH].
  apply keeps_bind; [apply kept_add | intros _; apply IH].
Qed.

Lemma kept_process_response (r : response) (source_url phase : string) (depth : nat)
    (category : string) :
  keeps P (_process_complete_response env r source_url phase depth category).
Proof.
  unfold _process_complete_response.
  apply keeps_bind; [apply kept_save|]. intros _.
  apply keeps_if; [apply keeps_ret | apply kept_process_links].
Qed.

Lemma kept_seed_queue (urls : list string) : keeps P (seed_queue env urls).
Proof.
  induction urls as [|url rest IH]; simpl; [apply keeps_ret|].
  apply keeps_bind; [apply keeps_lift|]. intros [category priority].
  apply keeps_bind; [|intros _; exact IH].
  apply keeps_if; [|apply keeps_ret]. intros s Hs. apply P_queue, Hs.
Qed.

Lemma kept_phase1 : keeps P (phase1_foundation_discovery env).
Proof.
  unfold phase1_foundation_discovery. apply keeps_try; [|apply keeps_ret].
  apply keeps_bind; [apply kept_scrape|]. intros r.
  apply keeps_if; [apply keeps_ret|].
  apply keeps_bind; [apply kept_process_response|]. intros urls.
  apply keeps_bind; [apply kept_seed_queue | intros _; apply keeps_ret].
Qed.

Lemma kept_crawl (url : string) (depth : nat) (category phase : string) :
  keeps P (_crawl_single_url env url depth category phase).
Proof.
  unfold _crawl_single_url. apply keeps_try.
  - apply keeps_bind; [apply kept_scrape|]. intros r.
    apply keeps_bind; [apply kept_process_response|]. intros urls s Hs. exact Hs.
  - intros s Hs. apply P_failed, Hs.
Qed.

Lemma kept_enqueue_new (new_urls : list string) (depth : nat) :
  keeps P (enqueue_new env new_urls depth).
Proof.
  induction new_urls as [|u rest IH]; simpl; [apply keeps_ret|].
  apply keeps_bind; [intros s Hs; exact Hs|]. intros known.
  apply keeps_bind; [|intros _; exact IH].
  intros s Hs.
  destruct (negb known && bool_decide (u ∉ queued_urls s)); [|exact Hs].
  revert s Hs. apply keeps_bind; [apply keeps_lift|]. intros [category priority].
  apply keeps_if; [|apply keeps_ret]. intros s Hs. apply P_queue, Hs.
Qed.

Lemma kept_phase2_turn (entry : string * nat * string) (acc : list string) :
  keeps P (phase2_turn env entry acc).
Proof.
  destruct entry as [[url depth] category]. unfold phase2_turn.
  apply keeps_bind; [intros s Hs; exact Hs|]. intros known.
  apply keeps_if; [apply keeps_ret|].
  apply keeps_bind; [apply kept_crawl|]. intros new_urls.
  apply keeps_bind.
  - destruct new_urls; [apply keeps_ret | apply kept_enqueue_new].
  - intros _. apply keeps_bind; [|intros _; apply keeps_ret].
    intros s Hs. apply P_queue, Hs.
Qed.

Lemma kept_phase2 (fuel : nat) : ∀ acc, keeps P (phase2_loop env fuel acc).
Proof.
  induction fuel as [|n IH]; intros acc s Hs; simpl.
  - destruct (crawl_queue s); exact Hs.
  - destruct (crawl_queue s) as [|entry rest]; [exact Hs|].
    apply (keeps_bind P (phase2_turn env entry acc) (fun acc' => phase2_loop env n acc')).
    + apply kept_phase2_turn.
    + exact IH.
    + apply P_popped, Hs.
Qed.

Lemma kept_merge_interactive (interactive_urls : list string) :
  ∀ new_urls, keeps P (merge_interactive env interactive_urls new_urls).
Proof.
  induction interactive_urls as [|u rest IH]; intros new_urls; simpl; [apply keeps_ret|].
  intros s Hs.
  destruct (bool_decide (u ∉ DiskStorage.existing_urls (DiskStorage._load_mapsite (storage s))));
    [|apply IH, Hs].
  revert s Hs. apply keeps_bind; [apply keeps_lift|]. intros [category priority].
  apply keeps_if; [|apply IH].
  apply keeps_bind; [apply kept_add | intros _; apply IH].
Qed.

Lemma kept_interactive_loop (targets : list (string * string)) :
  ∀ acc, keeps P (interactive_loop env targets acc).
Proof.
  induction targets as [|[url category] rest IH]; intros acc; simpl; [apply keeps_ret|].
  apply keeps_bind; [|exact IH].
  apply keeps_try; [|apply keeps_ret].
  apply keeps_bind; [intros s Hs; apply P_request, Hs|]. intros urls.
  apply keeps_bind; [apply kept_merge_interactive | intros v; apply keeps_ret].
Qed.

Lemma kept_phase3 : keeps P (phase3_interactive_discovery env).
Proof. intros s Hs. apply kept_interactive_loop, Hs. Qed.

Lemma kept_test_suggestions (suggestions : list string) :
  ∀ valid, keeps P (test_suggestions env suggestions valid).
Proof.
  induction suggestions as [|u rest IH]; intros valid; simpl; [apply keeps_ret|].
  apply keeps_bind; [|exact IH].
  apply keeps_try; [|apply keeps_ret].
  apply keeps_bind; [apply kept_scrape|]. intros r.
  apply keeps_if; [|apply keeps_ret].
  apply keeps_bind; [|intros _; apply keeps_ret].
  apply keeps_try; [|apply keeps_ret].
  apply keeps_bind; [apply keeps_lift|]. intros classified.
  apply keeps_bind; [apply kept_process_response | intros _; apply keeps_ret].
Qed.

Lemma kept_test_patterns (patterns : list (string * list string)) :
  ∀ acc, keeps P (test_patterns env patterns acc).
Proof.
  induction patterns as [|[pattern suggestions] rest IH]; intros acc; simpl;
    [apply keeps_ret|].
  apply keeps_bind; [apply kept_test_suggestions | intros v; apply IH].
Qed.

Lemma kept_phase4 : keeps P (phase4_pattern_completion env).
Proof.
  intros s Hs. unfold phase4_pattern_completion.
  destruct (URLPatternAnalyzer.analyze_patterns _ _ _) as [[patterns groups]|]; [|exact Hs].
  destruct patterns as [|p ps]; [apply P_patterns, Hs|].
  apply kept_test_patterns, P_patterns, Hs.
Qed.

Lemma kept_run (fuel : nat) : keeps P (run_ultra_deep_discovery env fuel).
Proof.
  unfold run_ultra_deep_discovery.
  apply keeps_if; [apply keeps_ret|].
  apply keeps_try; [|apply keeps_ret].
  apply keeps_bind; [apply kept_phase1|]. intros urls.
  destruct urls as [|u us]; [apply keeps_ret|].
  apply keeps_bind; [apply kept_phase2|]. intros [acc|]; [|apply keeps_ret].
  apply keeps_bind; [apply kept_phase3|]. intros _.
  apply keeps_bind; [apply kept_phase4|]. intros _.
  apply keeps_bind; [intros s Hs; exact Hs | intros report; apply keeps_ret].
Qed.

End Preserved.

Section Runs_more.
Import UltraDeepMapsite Facts Counting.
Variable env : Collaborators.

(** X10. The records a run finds on disk are still there when it ends, in place
    and unchanged, with the new ones behind them, whatever the site, the
    interaction and the failures on the way. *)
Theorem run_appends_only (fuel : nat) (s0 : t) :
  records s0 `prefix_of` records (state_of (run_ultra_deep_discovery env fuel s0)).
Proof.
  apply (kept_run env (fun s => records s0 `prefix_of` records s)); try (intros; assumption).
  - intros stamp url category phase depth s Hs. unfold records in *. simpl.
    etrans; [exact Hs|].
    destruct (DiskStorage.is_url_already_discovered (storage s) url) eqn:E.
    + rewrite add_known by exact E. reflexivity.
    + rewrite add_new by exact E. simpl. apply prefix_app_r. reflexivity.
  - intros stamp url r phase depth category s Hs. unfold records in *. simpl.
    unfold DiskStorage.save_scraped_content.
    destruct (DiskStorage._url_to_filename _ _ _); exact Hs.
  - reflexivity.
Qed.

(** X11. No run writes a second record for a URL: when the URLs on disk are
    pairwise different before a run, they are so after it; and the
    [total_count] field stays equal to the number of records. *)
Theorem run_keeps_urls_unique (fuel : nat) (s0 : t) :
  NoDup (urls_on_disk s0) → store_consistent s0 →
  NoDup (urls_on_disk (state_of (run_ultra_deep_discovery env fuel s0))) ∧
  store_consistent (state_of (run_ultra_deep_discovery env fuel s0)).
Proof.
  intros Hnd Hc. split; [|apply keeps_run, Hc].
  apply (kept_run env (fun s => NoDup (urls_on_disk s))); try (intros; assumption).
  - intros stamp url category phase depth s Hs. unfold urls_on_disk in *. simpl.
    apply add_no_duplicates, Hs.
  - intros stamp url r phase depth category s Hs. unfold urls_on_disk in *. simpl.
    unfold DiskStorage.save_scraped_content.
    destruct (DiskStorage._url_to_filename _ _ _); exact Hs.
Qed.

(** What the foundation phase puts on the queue is already on disk. *)
Lemma phase1_queues_known_of (s0 : t) (o : outcome (list string)) :
  Forall (known s0) (waiting s0) →
  phase1_foundation_discovery env s0 = o →
  Forall (known (state_of o)) (waiting (state_of o)).
Proof.
  intros Hk. unfold phase1_foundation_discovery, try_except.
  unfold bind at 1, scrape.
  destruct (scrape_url env (requests s0) (base_url env)) as [r|]; [|intros <-; exact Hk].
  destruct (negb (has_links r)); [intros <-; exact Hk|].
  unfold bind at 1.
  pose proof (process_response_known env r (base_url env) "phase1_foundation" 0 "homepage"
                (log_request (Scrape (base_url env)) s0)) as Hknown.
  pose proof (process_response_accepted env r (base_url env) "phase1_foundation" "homepage" 0
                (log_request (Scrape (base_url env)) s0)) as Hshape.
  destruct (_process_complete_response env r (base_url env) "phase1_foundation" 0 "homepage"
              (log_request (Scrape (base_url env)) s0)) as [urls sb|sb].
  - destruct Hknown as (Hurls & (Q & _ & _) & G & _).
    pose proof (Hshape _ _ eq_refl) as Ha.
    destruct (seed_queue_all env urls sb Ha) as (sc & new & Hseed & Qc & U & _ & St & _).
    rewrite (bind_returns _ _ _ _ _ Hseed). intros <-. simpl.
    unfold waiting. rewrite Qc, fmap_app, U. apply Forall_app. split.
    + rewrite Q. eapply Forall_impl; [exact Hk|]. intros u Hu.
      unfold known. rewrite St. apply G. exact Hu.
    + eapply Forall_impl; [exact Hurls|]. intros u Hu. unfold known. rewrite St. exact Hu.
  - intros <-. simpl. destruct Hknown as ((Q & _ & _) & G & _). unfold waiting. rewrite Q.
    eapply Forall_impl; [exact Hk|]. intros u Hu. apply G. exact Hu.
Qed.

Lemma phase1_queues_known (s0 : t) :
  Forall (known s0) (waiting s0) →
  Forall (known (state_of (phase1_foundation_discovery env s0)))
         (waiting (state_of (phase1_foundation_discovery env s0))).
Proof. intros Hk. apply (phase1_queues_known_of s0 _ Hk eq_refl). Qed.

(** On a queue of known URLs the recursive loop only takes entries off. *)
Lemma phase2_loop_idle (fuel : nat) :
  ∀ (acc : list string) (s : t),
    Forall (known s) (waiting s) →
    ∃ s', phase2_loop env fuel acc s =
            Returns (if (length (crawl_queue s) <=? fuel)%nat then Some acc else None) s' ∧
          storage s' = storage s ∧ requests s' = requests s ∧
          failed_urls s' = failed_urls s ∧ queued_urls s' = queued_urls s ∧
          discovered_patterns s' = discovered_patterns s.
Proof.
  induction fuel as [|n IH]; intros acc s Hk.
  - destruct (crawl_queue s) as [|entry rest] eqn:Hq; exists s; simpl; rewrite Hq;
      repeat split.
  - destruct (crawl_queue s) as [|entry rest] eqn:Hq.
    + exists s. simpl. rewrite Hq. repeat split.
    + simpl. rewrite Hq.
      rewrite (waiting_cons s entry rest Hq) in Hk.
      apply Forall_cons in Hk as [Hentry Hrest].
      rewrite (bind_returns _ _ _ _ _
                 (phase2_turn_skips env entry acc (log_popped entry.1.1 rest s) Hentry)).
      destruct (IH acc (log_popped entry.1.1 rest s) Hrest) as (s2 & Hloop & H).
      exists s2. split; [exact Hloop | exact H].
Qed.

(** X12. In every run, from whatever a previous run left on disk, the recursive
    phase is idle: each URL queued by the foundation phase is already on
    disk, so it is taken from the queue and skipped.  The phase sends no
    request, writes nothing, returns no URL, and no URL is ever recorded as
    failed, in this phase or by the end of the run. *)
Theorem recursive_phase_is_idle (on_disk : option DiskStorage.t) (fuel : nat) :
  let s1 := state_of (phase1_foundation_discovery env (init env on_disk)) in
  (∃ s2, phase2_recursive_discovery env fuel s1 =
           Returns (if (length (crawl_queue s1) <=? fuel)%nat then Some [] else None) s2 ∧
         requests s2 = requests s1 ∧ storage s2 = storage s1 ∧
         queued_urls s2 = queued_urls s1 ∧ failed_urls s2 = ∅) ∧
  failed_urls (state_of (run_ultra_deep_discovery env fuel (init env on_disk))) = ∅.
Proof.
  intros s1.
  assert (Hk1 : Forall (known s1) (waiting s1)).
  { apply phase1_queues_known. constructor. }
  assert (Hf1 : failed_urls s1 = ∅).
  { apply (kept_phase1 env (fun s => failed_urls s = ∅)); try (intros; assumption).
    reflexivity. }
  split.
  - destruct (phase2_loop_idle fuel [] s1 Hk1) as (s2 & H2 & St & R & F & Q & _).
    exists s2. split; [exact H2|]. repeat split; try assumption. rewrite F. exact Hf1.
  - unfold run_ultra_deep_discovery.
    destruct (initialize_session env); simpl; [|reflexivity].
    unfold try_except. unfold bind at 1. fold s1 in Hk1, Hf1. subst s1.
    destruct (phase1_foundation_discovery env (init env on_disk)) as [urls s1|s1];
      simpl in Hk1, Hf1; [|exact Hf1].
    destruct urls as [|u us]; [exact Hf1|].
    destruct (phase2_loop_idle fuel [] s1 Hk1) as (s2 & H2 & _ & _ & F & _).
    unfold bind at 1, phase2_recursive_discovery. rewrite H2.
    assert (Hf2 : failed_urls s2 = ∅) by (rewrite F; exact Hf1).
    destruct (length (crawl_queue s1) <=? fuel)%nat; [|exact Hf2].
    unfold bind at 1.
    assert (K3 : failed_urls (state_of (phase3_interactive_discovery env s2)) = ∅).
    { apply (kept_phase3 env (fun s => failed_urls s = ∅)); try (intros; assumption). }
    destruct (phase3_interactive_discovery env s2) as [urls3 s3|s3]; simpl in K3;
      [|exact K3].
    unfold bind at 1.
    assert (K4 : failed_urls (state_of (phase4_pattern_completion env s3)) = ∅).
    { apply (kept_phase4 env (fun s => failed_urls s = ∅)); try (intros; assumption). }
    destruct (phase4_pattern_completion env s3) as [urls4 s4|s4]; simpl in K4;
      [|exact K4].
    exact K4.
Qed.

(** X13. A crawl whose fetch fails returns the empty list, records the URL as
    failed and leaves the disk and the queue as they were. *)
Theorem failed_fetch_is_recorded (url category phase : string) (depth : nat) (s : t) :
  scrape_url env (requests s) url = Raised →
  ∃ s', _crawl_single_url env url depth category phase s = Returns [] s' ∧
        failed_urls s' = {[url]} ∪ failed_urls s ∧
        requests s' = requests s ++ [Scrape url] ∧
        storage s' = storage s ∧ crawl_queue s' = crawl_queue s.
Proof.
  intros Hraise. unfold _crawl_single_url, try_except, bind, scrape. rewrite Hraise.
  eexists. split; [reflexivity|]. repeat split.
Qed.

(** X14. A run is given up without a summary, and without a record or a queue
    entry being written, when the session cannot be set up, when the fetch
    of the base URL fails, or when its response carries no link. *)
Theorem seed_failure_aborts (fuel : nat) (s : t) :
  initialize_session env = false ∨
  scrape_url env (requests s) (base_url env) = Raised ∨
  (∃ r, scrape_url env (requests s) (base_url env) = Ok r ∧ has_links r = false) →
  ∃ s', run_ultra_deep_discovery env fuel s = Returns Aborted s' ∧
        storage s' = storage s ∧ crawl_queue s' = crawl_queue s ∧
        failed_urls s' = failed_urls s.
Proof.
  unfold run_ultra_deep_discovery.
  destruct (initialize_session env); simpl.
  - intros [Hs | [Hraise | (r & Hr & Hl)]]; [discriminate| |].
    + unfold try_except, bind, phase1_foundation_discovery, try_except, bind, scrape.
      rewrite Hraise. simpl. eexists. split; [reflexivity|]. repeat split.
    + unfold try_except, bind, phase1_foundation_discovery, try_except, bind, scrape.
      rewrite Hr, Hl. simpl. eexists. split; [reflexivity|]. repeat split.
  - intros _. exists s. repeat split.
Qed.

End Runs_more.

Section Runs_witnesses.
Import UltraDeepMapsite Facts Counting Scenario.

Lemma run_keeps_urls_unique_witness :
  let env := env_with seed_links in
  NoDup (urls_on_disk (state_of (run_ultra_deep_discovery env 3
                                   (init env (Some (disk_with "https://www.example.com/a")))))) ∧
  store_consistent (state_of (run_ultra_deep_discovery env 3
                                (init env (Some (disk_with "https://www.example.com/a"))))).
Proof.
  apply (run_keeps_urls_unique (env_with seed_links) 3).
  - vm_compute. apply NoDup_singleton.
  - reflexivity.
Defined.

Lemma failed_fetch_is_recorded_witness :
  ∃ s', _crawl_single_url env_down "https://www.example.com/a" 1 "general"
          "phase2_recursive" (init env_down None) = Returns [] s' ∧
        failed_urls s' = {["https://www.example.com/a"]} ∪ failed_urls (init env_down None) ∧
        requests s' = requests (init env_down None) ++ [Scrape "https://www.example.com/a"] ∧
        storage s' = storage (init env_down None) ∧
        crawl_queue s' = crawl_queue (init env_down None).
Proof.
  apply (failed_fetch_is_recorded env_down). reflexivity.
Defined.

Lemma seed_failure_aborts_witness :
  ∃ s', run_ultra_deep_discovery env_down 5 (init env_down None) = Returns Aborted s' ∧
        storage s' = storage (init env_down None) ∧
        crawl_queue s' = crawl_queue (init env_down None) ∧
        failed_urls s' = failed_urls (init env_down None).
Proof.
  apply (seed_failure_aborts env_down). right. left. reflexivity.
Defined.

End Runs_witnesses.

(** ** URLPatternAnalyzer *)

Section Analyzer_more.
Import URLPatternAnalyzer.









End Analyzer_more.

(** ** Grouping: the analyzer's shapes and the interactive targets *)

Section Groups_more.
Import URLPatternAnalyzer.

Lemma append_to_keys (key v : string) (d : list (string * list string)) :
  NoDup d.*1 → NoDup (Dict.append_to key v d).*1.
Proof.
  induction d as [|[k vs] rest IH]; simpl; intros Hnd.
  - repeat constructor. apply not_elem_of_nil.
  - apply NoDup_cons in Hnd as [Hk Hrest].
    destruct (String.eqb k key) eqn:E; simpl; [constructor; assumption|].
    constructor; [|apply IH, Hrest].
    assert (Hkeys : ∀ x, x ∈ (Dict.append_to key v rest).*1 → x = key ∨ x ∈ rest.*1).
    { clear. induction rest as [|[k' vs'] rest IH]; simpl; intros x Hx.
      - apply list_elem_of_singleton in Hx. left. exact Hx.
      - destruct (String.eqb k' key); simpl in Hx.
        + right. exact Hx.
        + apply elem_of_cons in Hx as [-> | Hx].
          * right. apply elem_of_cons. left. reflexivity.
          * destruct (IH x Hx) as [-> | H]; [left; reflexivity|].
            right. apply elem_of_cons. right. exact H. }
    intros Hin. destruct (Hkeys k Hin) as [-> | H]; [|contradiction].
    rewrite String.eqb_refl in E. discriminate.
Qed.

Lemma append_to_Forall (Q : string → list string → Prop) (key v : string)
    (d : list (string * list string)) :
  Forall (fun g : string * list string => Q g.1 g.2) d →
  Q key [v] → (∀ vs, Q key vs → Q key (vs ++ [v])) →
  Forall (fun g : string * list string => Q g.1 g.2) (Dict.append_to key v d).
Proof.
  intros Hd Hnew Hadd. induction d as [|[k vs] rest IH]; simpl.
  - constructor; [exact Hnew | constructor].
  - apply Forall_cons in Hd as [Hk Hrest]. simpl in Hk.
    destruct (String.eqb k key) eqn:E.
    + apply String.eqb_eq in E. subst k. constructor; [apply Hadd, Hk | exact Hrest].
    + constructor; [exact Hk | apply IH, Hrest].
Qed.




End Groups_more.

Section Targets_more.
Import UltraDeepMapsite Facts.

Lemma targets_of_groups (groups : list (string * list string)) (c : string) :
  NoDup groups.*1 →
  (length (filter (fun t : string * string => t.2 = c)
             (flat_map (fun '(category, urls) =>
                          (fun url => (url, category)) <$> take 10 urls) groups)) ≤ 10)%nat.
Proof.
  assert (Hother : ∀ k (us : list string), k ≠ c →
            filter (fun t : string * string => t.2 = c) ((fun url => (url, k)) <$> us) = []).
  { intros k us Hk. induction us as [|u us IH]; [reflexivity|].
    rewrite fmap_cons, filter_cons_False by exact Hk. exact IH. }
  assert (Hnone : ∀ gs : list (string * list string), c ∉ gs.*1 →
            filter (fun t : string * string => t.2 = c)
              (flat_map (fun '(category, urls) =>
                           (fun url => (url, category)) <$> take 10 urls) gs) = []).
  { induction gs as [|[k us] gs IH]; intros Hc; [reflexivity|].
    simpl. rewrite filter_app. rewrite fmap_cons in Hc.
    apply not_elem_of_cons in Hc as [Hk Hc]. simpl in Hk.
    rewrite Hother by congruence. rewrite IH by exact Hc. reflexivity. }
  induction groups as [|[k us] rest IH]; intros Hnd; [simpl; lia|].
  rewrite fmap_cons in Hnd. apply NoDup_cons in Hnd as [Hk Hrest].
  simpl. rewrite filter_app, length_app.
  destruct (decide (k = c)) as [->|Hne].
  - rewrite Hnone by exact Hk. simpl.
    etrans; [apply Nat.add_le_mono_r, length_filter|].
    rewrite length_fmap, length_take. lia.
  - rewrite Hother by exact Hne. simpl. apply IH, Hrest.
Qed.

(** X18. [_select_interactive_targets]: every target is the URL of a record on
    disk, paired with the category of that record, and no category
    contributes more than ten targets. *)
Theorem interactive_targets_bounded (s : t) (category : string) :
  Forall (fun target : string * string =>
            ∃ e, e ∈ records s ∧ DiskStorage.entry_url e = target.1 ∧
                 DiskStorage.entry_category e = target.2)
         (_select_interactive_targets s) ∧
  (length (filter (fun target : string * string => target.2 = category)
             (_select_interactive_targets s)) ≤ 10)%nat.
Proof.
  unfold _select_interactive_targets, DiskStorage._load_mapsite. fold (records s).
  assert (Hinv : ∀ (l : list DiskStorage.url_entry) groups,
            l ⊆ records s →
            NoDup groups.*1 →
            Forall (fun g : string * list string =>
                      Forall (fun u => ∃ e, e ∈ records s ∧ DiskStorage.entry_url e = u ∧
                                            DiskStorage.entry_category e = g.1) g.2) groups →
            let groups' :=
              fold_left (fun d item => Dict.append_to (DiskStorage.entry_category item)
                                         (DiskStorage.entry_url item) d) l groups in
            NoDup groups'.*1 ∧
            Forall (fun g : string * list string =>
                      Forall (fun u => ∃ e, e ∈ records s ∧ DiskStorage.entry_url e = u ∧
                                            DiskStorage.entry_category e = g.1) g.2) groups').
  { induction l as [|item l IH]; intros groups Hsub Hnd Hg; simpl; [split; assumption|].
    apply IH.
    - intros e He. apply Hsub. apply elem_of_cons. right. exact He.
    - apply append_to_keys, Hnd.
    - assert (Hitem : item ∈ records s) by (apply Hsub; apply elem_of_cons; left; reflexivity).
      apply (append_to_Forall
               (fun k vs => Forall (fun u => ∃ e, e ∈ records s ∧ DiskStorage.entry_url e = u ∧
                                                  DiskStorage.entry_category e = k) vs)).
      + exact Hg.
      + constructor; [|constructor]. exists item. repeat split. exact Hitem.
      + intros vs Hvs. apply Forall_app. split; [exact Hvs|].
        constructor; [|constructor]. exists item. repeat split. exact Hitem. }
  destruct (Hinv (records s) [] (reflexivity _) (NoDup_nil_2) (Forall_nil_2 _))
    as [Hnd Hg].
  split.
  - apply Forall_forall. intros [u c] Hin.
    apply list_elem_of_In, in_flat_map in Hin as ([k us] & Hk & Hu).
    apply list_elem_of_In in Hk, Hu.
    apply list_elem_of_fmap in Hu as (u' & [= -> ->] & Hu').
    eapply Forall_forall in Hg; [|exact Hk]. simpl in Hg.
    eapply Forall_forall in Hg; [exact Hg|].
    eapply subseteq_take. exact Hu'.
  - apply targets_of_groups, Hnd.
Qed.

End Targets_more.

(** ** Phases 3 and 4, and the order of the summary *)

Section Phases_more.
Import UltraDeepMapsite Facts Counting.
Variable env : Collaborators.

(** X19. The merge of interactively found URLs goes through the same
    deduplicating insert as everything else: a URL is reported as new only
    if the disk did not know it and the classifier accepts it; it is then on
    disk, recorded under "phase3_interactive" at depth 0; no URL is reported
    twice, and old records stay as they are. *)
Theorem interactive_urls_are_deduplicated (interactive_urls : list string) :
  ∀ (new_urls : list string) (s : t),
    NoDup new_urls → Forall (known s) new_urls →
    match merge_interactive env interactive_urls new_urls s with
    | Returns urls s' =>
        NoDup urls ∧ Forall (known s') urls ∧ new_urls `prefix_of` urls ∧
        Forall (fun u => u ∈ new_urls ∨
                         (u ∈ interactive_urls ∧ accepted env u ∧ ¬ known s u)) urls ∧
        ∃ added, records s' = records s ++ added ∧
                 Forall (fun e => DiskStorage.entry_phase e = "phase3_interactive" ∧
                                  DiskStorage.entry_depth e = 0%nat ∧
                                  DiskStorage.entry_url e ∈ urls) added
    | Raises s' => ∃ added, records s' = records s ++ added
    end.
Proof.
  induction interactive_urls as [|u rest IH]; intros new_urls s Hnd Hk.
  - simpl. split; [exact Hnd|]. split; [exact Hk|]. split; [reflexivity|]. split.
    + apply Forall_forall. intros x Hx. left. exact Hx.
    + exists []. rewrite app_nil_r. split; [reflexivity | constructor].
  - assert (Hskip :
      match merge_interactive env rest new_urls s with
      | Returns urls s' =>
          NoDup urls ∧ Forall (known s') urls ∧ new_urls `prefix_of` urls ∧
          Forall (fun x => x ∈ new_urls ∨
                           (x ∈ u :: rest ∧ accepted env x ∧ ¬ known s x)) urls ∧
          ∃ added, records s' = records s ++ added ∧
                   Forall (fun e => DiskStorage.entry_phase e = "phase3_interactive" ∧
                                    DiskStorage.entry_depth e = 0%nat ∧
                                    DiskStorage.entry_url e ∈ urls) added
      | Raises s' => ∃ added, records s' = records s ++ added
      end).
    { specialize (IH new_urls s Hnd Hk).
      destruct (merge_interactive env rest new_urls s); [|exact IH].
      destruct IH as (H1 & H2 & H3 & H4 & H5). repeat split; try assumption.
      eapply Forall_impl; [exact H4|]. intros x [Hx | (Hx & Ha & Hn)]; [left; exact Hx|].
      right. split; [apply elem_of_cons; right; exact Hx | split; assumption]. }
    simpl.
    destruct (bool_decide (u ∉ DiskStorage.existing_urls
                                 (DiskStorage._load_mapsite (storage s)))) eqn:Hnew;
      [|exact Hskip].
    assert (Hunknown : DiskStorage.is_url_already_discovered (storage s) u = false).
    { apply unknown_of_decide. exact Hnew. }
    unfold bind at 1. rewrite classify_eq.
    destruct (ContentClassifier.classify_url _ _ u) as [[category priority]|] eqn:Hcl.
    2:{ exists []. rewrite app_nil_r. reflexivity. }
    destruct (0 <? priority)%nat eqn:Hpos; [|exact Hskip].
    unfold bind at 1. rewrite add_url_eq. cbv zeta.
    rewrite (add_new _ _ _ _ _ _ Hunknown). simpl.
    set (s1 := set_storage _ (advance_clock s)).
    assert (Hrec1 : records s1 = records s ++
              [ {| DiskStorage.entry_url := u; DiskStorage.entry_category := category;
                   DiskStorage.entry_phase := "phase3_interactive";
                   DiskStorage.entry_depth := 0;
                   DiskStorage.discovered_at := strftime env (clock s) |} ])
      by reflexivity.
    assert (Hgrow : ∀ x, known s x → known s1 x).
    { intros x Hx. apply known_on_disk. apply known_on_disk in Hx.
      unfold urls_on_disk. fold (records s1). rewrite Hrec1, fmap_app, elem_of_app.
      left. exact Hx. }
    assert (Hu1 : known s1 u).
    { apply known_on_disk. unfold urls_on_disk. fold (records s1).
      rewrite Hrec1, fmap_app, elem_of_app. right. apply list_elem_of_singleton. reflexivity. }
    assert (Hfresh : u ∉ new_urls).
    { intros Hin. eapply Forall_forall in Hk; [|exact Hin].
      unfold known in Hk. congruence. }
    specialize (IH (new_urls ++ [u]) s1).
    destruct (merge_interactive env rest (new_urls ++ [u]) s1) as [urls s'|s'].
    + destruct IH as (H1 & H2 & H3 & H4 & added & H5 & H6).
      { apply NoDup_app. split; [exact Hnd|]. split; [|apply NoDup_singleton].
        intros x Hx Hin. apply list_elem_of_singleton in Hin. subst x. contradiction. }
      { apply Forall_app. split; [eapply Forall_impl; [exact Hk | exact Hgrow]|].
        constructor; [exact Hu1 | constructor]. }
      assert (Hin : u ∈ urls).
      { destruct H3 as [k ->]. rewrite !elem_of_app. left. right.
        apply list_elem_of_singleton. reflexivity. }
      split; [exact H1|]. split; [exact H2|].
      split; [etrans; [apply prefix_app_r; reflexivity | exact H3]|].
      split.
      * eapply Forall_impl; [exact H4|]. intros x [Hx | (Hx & Ha & Hn)].
        -- apply elem_of_app in Hx as [Hx | Hx]; [left; exact Hx|].
           apply list_elem_of_singleton in Hx. subst x. right.
           split; [apply elem_of_cons; left; reflexivity|]. split.
           ++ exists category, priority. split; [exact Hcl | apply Nat.ltb_lt, Hpos].
           ++ unfold known. congruence.
        -- right. split; [apply elem_of_cons; right; exact Hx|].
           split; [exact Ha|]. intros Hks. apply Hn, Hgrow, Hks.
      * eexists. split; [rewrite H5, Hrec1, <- app_assoc; reflexivity|].
        constructor; [|exact H6]. repeat split. exact Hin.
    + destruct IH as (added & H5).
      { apply NoDup_app. split; [exact Hnd|]. split; [|apply NoDup_singleton].
        intros x Hx Hin. apply list_elem_of_singleton in Hin. subst x. contradiction. }
      { apply Forall_app. split; [eapply Forall_impl; [exact Hk | exact Hgrow]|].
        constructor; [exact Hu1 | constructor]. }
      eexists. rewrite H5, Hrec1, <- app_assoc. reflexivity.
Qed.

(** Merging touches nothing but the store, whether it returns or raises. *)
Lemma merge_only_store (interactive_urls : list string) :
  ∀ (new_urls : list string) (s : t),
    only_store s (state_of (merge_interactive env interactive_urls new_urls s)).
Proof.
  induction interactive_urls as [|u rest IH]; intros new_urls s.
  - apply only_store_refl.
  - simpl.
    destruct (bool_decide (u ∉ DiskStorage.existing_urls
                                 (DiskStorage._load_mapsite (storage s)))); [|apply IH].
    unfold bind at 1. rewrite classify_eq.
    destruct (ContentClassifier.classify_url _ _ u) as [[category priority]|];
      [|apply only_store_refl].
    destruct (0 <? priority)%nat; [|apply IH].
    destruct (add_url_only_store env u category "phase3_interactive" 0 s)
      as (added & s1 & Hadd & Hs1 & _).
    rewrite (bind_returns _ _ _ _ _ Hadd).
    eapply only_store_trans; [exact Hs1 | apply IH].
Qed.

Lemma interactive_loop_visits (targets : list (string * string)) :
  ∀ (acc : list string) (s : t),
    ∃ urls s', interactive_loop env targets acc s = Returns urls s' ∧
               requests s' = requests s ++ (Interact <$> targets.*1) ∧
               frontier_kept s s' ∧ failed_urls s' = failed_urls s ∧ store_grows s s'.
Proof.
  induction targets as [|[url category] rest IH]; intros acc s.
  - exists acc, s. simpl. rewrite app_nil_r. repeat split. apply store_grows_refl.
  - simpl.
    assert (Hstep : ∃ acc1 s1,
               try_except
                 (bind (interact env url) (fun interactive_urls =>
                    bind (merge_interactive env interactive_urls [])
                         (fun new_urls => ret (acc ++ new_urls))))
                 (ret acc) s = Returns acc1 s1 ∧
               only_store (log_request (Interact url) s) s1).
    { unfold try_except, bind at 1, interact.
      pose proof (merge_only_store (extract_interactive_urls env (requests s) url) []
                    (log_request (Interact url) s)) as H.
      unfold bind at 1.
      destruct (merge_interactive env _ [] (log_request (Interact url) s)) as [new s1|s1];
        simpl in *; eexists _, s1; (split; [reflexivity | exact H]). }
    destruct Hstep as (acc1 & s1 & Hstep & (F1 & G1 & R1 & E1)).
    rewrite (bind_returns _ _ _ _ _ Hstep).
    destruct (IH acc1 s1) as (urls & s2 & Hloop & R2 & F2 & E2 & G2).
    exists urls, s2. split; [exact Hloop|].
    split; [rewrite R2, R1; simpl; rewrite <- app_assoc; reflexivity|].
    split; [eapply frontier_kept_trans; [exact F1 | exact F2]|].
    split; [rewrite E2, E1; reflexivity|].
    eapply store_grows_trans; [exact G1 | exact G2].
Qed.

(** X20. The interactive phase never raises.  It interacts once with each target
    selected from the disk as it was when the phase began, in order, also
    after the classifier raised on a URL found for an earlier target, and
    never with a page it found itself; it fetches nothing, leaves the queue and the failed URLs alone, and the
    disk keeps what it knew. *)
Theorem interactive_phase_visits_targets (s : t) :
  ∃ urls s',
    phase3_interactive_discovery env s = Returns urls s' ∧
    requests s' = requests s ++ (Interact <$> (_select_interactive_targets s).*1) ∧
    frontier_kept s s' ∧ failed_urls s' = failed_urls s ∧ store_grows s s'.
Proof. unfold phase3_interactive_discovery. apply interactive_loop_visits. Qed.

Lemma request_logged (u : string) (s s1 : t) :
  requests s1 = requests (log_request (Scrape u) s) → requests s1 = requests s ++ [Scrape u].
Proof. intros ->. reflexivity. Qed.

(** X21. Testing the suggestions of a pattern never raises: each suggestion is
    fetched exactly once, in order, whatever the fetches do, and the URLs
    reported valid are suggestions, in the order tested. *)
Theorem suggestions_fetched_once (suggestions : list string) :
  ∀ (valid_urls : list string) (s : t),
    ∃ new s',
      test_suggestions env suggestions valid_urls s = Returns (valid_urls ++ new) s' ∧
      new `sublist_of` suggestions ∧
      requests s' = requests s ++ (Scrape <$> suggestions) ∧
      frontier_kept s s'.
Proof.
  induction suggestions as [|u rest IH]; intros valid s.
  - exists [], s. simpl. rewrite !app_nil_r. repeat split. constructor.
  - simpl.
    assert (Hstep : ∃ acc s1,
               try_except
                 (bind (scrape env u) (fun result =>
                    if meaningful result then
                      bind (try_except
                              (bind (classify_url env u) (fun classified =>
                                 bind (_process_complete_response env result u
                                         "phase4_patterns" 0 classified.1)
                                      (fun _ => ret tt)))
                              (ret tt))
                           (fun _ => ret (valid ++ [u]))
                    else ret valid))
                 (ret valid) s = Returns acc s1 ∧
               (acc = valid ∨ acc = valid ++ [u]) ∧
               requests s1 = requests s ++ [Scrape u] ∧ frontier_kept s s1).
    { unfold try_except at 1. unfold bind at 1. unfold scrape.
      destruct (scrape_url env (requests s) u) as [r|].
      - destruct (meaningful r).
        + unfold bind at 1. unfold try_except. unfold bind at 1. rewrite classify_eq.
          destruct (ContentClassifier.classify_url _ _ u) as [classified|].
          * pose proof (process_response_known env r u "phase4_patterns" 0 classified.1
                          (log_request (Scrape u) s)) as Hp.
            unfold bind at 1.
            destruct (_process_complete_response env r u "phase4_patterns" 0 classified.1
                        (log_request (Scrape u) s)) as [urls s1|s1]; simpl.
            -- destruct Hp as (_ & F & _ & R & _).
               eexists _, s1. split; [reflexivity|]. split; [right; reflexivity|].
               split; [apply request_logged, R | exact F].
            -- destruct Hp as (F & _ & R & _).
               eexists _, s1. split; [reflexivity|]. split; [right; reflexivity|].
               split; [apply request_logged, R | exact F].
          * simpl. eexists _, _. split; [reflexivity|]. split; [right; reflexivity|].
            repeat split.
        + eexists _, _. split; [reflexivity|]. split; [left; reflexivity|]. repeat split.
      - eexists _, _. split; [reflexivity|]. split; [left; reflexivity|]. repeat split. }
    destruct Hstep as (acc & s1 & Hstep & Hacc & R1 & F1).
    rewrite (bind_returns _ _ _ _ _ Hstep).
    destruct (IH acc s1) as (new & s2 & Hrest & Hsub & R2 & F2).
    destruct Hacc as [-> | ->].
    + exists new, s2. split; [exact Hrest|]. split; [apply sublist_cons, Hsub|].
      split; [rewrite R2, R1, <- app_assoc; reflexivity|].
      eapply frontier_kept_trans; eassumption.
    + exists (u :: new), s2. split; [rewrite Hrest, <- app_assoc; reflexivity|].
      split; [apply sublist_skip, Hsub|].
      split; [rewrite R2, R1, <- app_assoc; reflexivity|].
      eapply frontier_kept_trans; eassumption.
Qed.

(** X22. The summary lists the category counts of [get_current_stats], and
    then its phase counts, each list reordered so that the counts never
    increase on the way down; nothing is left out or added, and printing
    changes nothing. *)
Theorem summary_is_ordered (s : t) :
  let stats := DiskStorage.get_current_stats (storage s) in
  ∃ by_category by_phase,
    save_ultra_comprehensive_results env s =
      Returns ([BaseUrl (base_url env);
                TotalUrlsDiscovered (DiskStorage.total_urls stats)] ++
               ((fun '(category, count) => CategoryCount category count) <$> by_category) ++
               ((fun '(phase, count) => PhaseCount phase count) <$> by_phase) ++
               [LastUpdated (DiskStorage.stats_last_updated stats)],
               DiskStorage.total_urls stats) s ∧
    by_category ≡ₚ DiskStorage.categories stats ∧
    by_phase ≡ₚ DiskStorage.phases stats ∧
    Sorted (fun a b : string * nat => (b.2 ≤ a.2)%nat) by_category ∧
    Sorted (fun a b : string * nat => (b.2 ≤ a.2)%nat) by_phase.
Proof.
  cbv zeta. eexists _, _. split; [reflexivity|].
  split; [apply sorted_desc_perm|]. split; [apply sorted_desc_perm|].
  split; apply sorted_desc_sorted.
Qed.

End Phases_more.

Section Phases_witnesses.
Import UltraDeepMapsite Facts Counting.

Lemma interactive_urls_are_deduplicated_witness :
  let env := Scenario.env_with [] in
  let s := init env (Some (Scenario.disk_with "https://www.example.com/a")) in
  match merge_interactive env
          ["https://www.example.com/a"; "https://www.example.com/b";
           "https://www.example.com/b"] [] s with
  | Returns urls s' => urls = ["https://www.example.com/b"] ∧ NoDup urls
  | Raises _ => False
  end.
Proof.
  intros env s.
  pose proof (interactive_urls_are_deduplicated env
                ["https://www.example.com/a"; "https://www.example.com/b";
                 "https://www.example.com/b"] [] s (NoDup_nil_2) (Forall_nil_2 _)) as H.
  destruct (merge_interactive env _ [] s) as [urls s'|s'] eqn:E.
  - destruct H as (Hnd & _). split; [|exact Hnd].
    vm_compute in E. injection E as <- _. reflexivity.
  - vm_compute in E. discriminate.
Defined.

End Phases_witnesses.
